(** * go-sourcemap consumer (vendor/github.com/go-sourcemap/sourcemap/consumer.go)

    A shallow embedding of the source-map consumer: version check, source
    root resolution ([sourceMap.parse]), [absSource], the section scan of
    [Consumer.Source] and the binary search of [Consumer.source].

    Conventions.
    - Go's [int] is 64 bits wide here; it is a [Z] and the two arithmetic
      operations of the file ([+] and [-=] in [Consumer.Source]) wrap.
    - A pointer [*sourceMap] is an [option]: [None] is [nil].
    - A run-time panic (nil dereference, index out of range) is the
      [Panic] outcome; an [error] value returned by the code is [Err].
    - What the file calls in Go's standard library (net/url, path,
      strconv, fmt, encoding/json) and the decoder [parseMappings], which
      lives in another file of the package, are fields of the class
      [GoLib]: the development is generic in them. *)

From Stdlib Require Import ZArith List Bool Ascii Lia.
From stdpp Require Import base list strings pretty.

Local Open Scope Z_scope.
Set Warnings "-register-all".

(** ** Go integers *)

Definition int_min : Z := - 2 ^ 63.
Definition int_max : Z := 2 ^ 63 - 1.

Definition is_int (z : Z) : Prop := int_min <= z <= int_max.

(** Two's complement wrap-around of a 64-bit signed integer. *)
Definition wrap (z : Z) : Z := (z + 2 ^ 63) mod 2 ^ 64 - 2 ^ 63.

Definition int_add (a b : Z) : Z := wrap (a + b).
Definition int_sub (a b : Z) : Z := wrap (a - b).

(** ** Results, errors and panics *)

Inductive result (E A : Type) : Type :=
| Ok (a : A)
| Err (e : E).
Arguments Ok {E A} a.
Arguments Err {E A} e.

(** The [error] values the file returns.  [UnsupportedVersion] is the one
    it builds itself ([fmt.Errorf] in [checkVersion], carrying [version]);
    the other three are passed through unchanged from [json.Unmarshal],
    [url.Parse] and [parseMappings], whose message they keep. *)
Inductive error : Type :=
| UnsupportedVersion (got : Z)
| MalformedDocument (msg : string)
| InvalidURL (msg : string)
| MalformedMappings (msg : string).

Inductive panic : Type :=
| NilDereference
| IndexOutOfRange.

Inductive outcome (A : Type) : Type :=
| Ret (a : A)
| Panic (p : panic).
Arguments Ret {A} a.
Arguments Panic {A} p.

Definition bind {A B : Type} (o : outcome A) (k : A -> outcome B) : outcome B :=
  match o with
  | Ret a => k a
  | Panic p => Panic p
  end.

Notation "'let*' x := o 'in' k" := (bind o (fun x => k))
  (at level 10, x name, o at level 100, k at level 200).

(** ** Data model *)

(** Modelled from the spec: the declaration of [mapping] is in mappings.go
    of the package, not in consumer.go (MappingRecord in section 3 of the
    specification).  The fields are the ones consumer.go reads, all of type
    [int] (they are compared with and assigned to [int] values there); an
    index is absent when negative. *)
Record mapping : Type := {
  genLine : Z;
  genColumn : Z;
  sourcesInd : Z;
  sourceLine : Z;
  sourceColumn : Z;
  namesInd : Z
}.

(** The types of the standard library the file handles but never looks
    into: [url.URL] and [float64]. *)
Class GoTypes : Type := {
  URL : Type;
  float64 : Type
}.

Section Model.
Context {T : GoTypes}.

(** An element of [Names []interface{}] as [encoding/json] decodes it. *)
Inductive json_value : Type :=
| JNull
| JBool (b : bool)
| JNumber (v : float64)
| JString (s : string)
| JArray (vs : list json_value)
| JObject (kvs : list (string * json_value)).

Record sourceMap : Type := {
  Version : Z;
  File : string;
  SourceRoot : string;
  Sources : list string;
  Names : list json_value;
  Mappings : string;
  sourceRootURL : option URL;
  mappings : list mapping
}.

Record section : Type := {
  Offset_Line : Z;
  Offset_Column : Z;
  Map : option sourceMap
}.

(** [type v3 struct { sourceMap; Sections []section }] *)
Record v3 : Type := {
  v3_sourceMap : sourceMap;
  Sections : list section
}.

Record Consumer : Type := {
  file : string;
  sections : list section
}.

(** The named results of [Source] and [source]. *)
Record lookup_result : Type := {
  res_source : string;
  res_name : string;
  res_line : Z;
  res_column : Z;
  res_ok : bool
}.

(** The zero values a bare [return] leaves in the named results. *)
Definition not_found : lookup_result :=
  {| res_source := ""; res_name := ""; res_line := 0; res_column := 0;
     res_ok := false |}.

(** The standard library functions the file calls, and [parseMappings]. *)
Class GoLib : Type := {
  (* encoding/json: a fresh v3 filled from the bytes *)
  json_Unmarshal : list Byte.byte -> result string v3;
  (* net/url *)
  url_Parse : string -> result string URL;
  URL_IsAbs : URL -> bool;
  URL_Path : URL -> string;
  URL_set_Path : URL -> string -> URL;
  URL_String : URL -> string;
  (* path *)
  path_IsAbs : string -> bool;
  path_Dir : string -> string;
  path_Join : string -> string -> string;
  (* strconv.FormatFloat(v, fmt, prec, bitSize) and fmt.Sprint *)
  strconv_FormatFloat : float64 -> Ascii.ascii -> Z -> Z -> string;
  fmt_Sprint : json_value -> string;
  (* mappings.go *)
  parseMappings : string -> result string (list mapping)
}.

Context {L : GoLib}.

(** ** checkVersion *)

Definition checkVersion (version : Z) : option error :=
  if (version =? 3) || (version =? 0) then None
  else Some (UnsupportedVersion version).

(** ** sourceMap.parse

    The receiver is updated in place in Go; here the updated struct is
    returned.  On an error the struct is not looked at again. *)

Definition set_sourceRootURL (m : sourceMap) (u : option URL) : sourceMap :=
  {| Version := Version m; File := File m; SourceRoot := SourceRoot m;
     Sources := Sources m; Names := Names m; Mappings := Mappings m;
     sourceRootURL := u; mappings := mappings m |}.

Definition set_mappings (m : sourceMap) (ms : list mapping) : sourceMap :=
  {| Version := Version m; File := File m; SourceRoot := SourceRoot m;
     Sources := Sources m; Names := Names m; Mappings := "";
     sourceRootURL := sourceRootURL m; mappings := ms |}.

Definition nonempty (s : string) : bool := negb (String.eqb s "").

Definition parse (m : sourceMap) (mapURL : string) : result error sourceMap :=
  match checkVersion (Version m) with
  | Some err => Err err
  | None =>
    let root : result error sourceMap :=
      if nonempty (SourceRoot m) then
        match url_Parse (SourceRoot m) with
        | Err e => Err (InvalidURL e)
        | Ok u => Ok (if URL_IsAbs u then set_sourceRootURL m (Some u) else m)
        end
      else if nonempty mapURL then
        match url_Parse mapURL with
        | Err e => Err (InvalidURL e)
        | Ok u =>
          Ok (if URL_IsAbs u
              then set_sourceRootURL m (Some (URL_set_Path u (path_Dir (URL_Path u))))
              else m)
        end
      else Ok m in
    match root with
    | Err e => Err e
    | Ok m1 =>
      match parseMappings (Mappings m1) with
      | Err e => Err (MalformedMappings e)
      | Ok ms => Ok (set_mappings m1 ms)
      end
    end
  end.

(** ** sourceMap.absSource *)

Definition is_abs_url (s : string) : bool :=
  match url_Parse s with
  | Ok u => URL_IsAbs u
  | Err _ => false
  end.

Definition absSource (m : sourceMap) (source : string) : string :=
  if path_IsAbs source then source
  else if is_abs_url source then source
  else match sourceRootURL m with
       | Some root =>
         let u := URL_set_Path root (path_Join (URL_Path root) source) in
         URL_String u
       | None =>
         if nonempty (SourceRoot m) then path_Join (SourceRoot m) source
         else source
       end.

(** ** sort.Search

    [i, j := 0, n; for i < j { h := int(uint(i+j) >> 1); if !f(h) { i = h + 1 }
    else { j = h } }; return i].  Indices are naturals; [uint(i+j) >> 1] is
    the exact half of the sum.  The loop is run on a budget of iterations:
    [j - i] shrinks at every turn, so [n] turns are enough
    ([Search_loop_fuel]). *)

Fixpoint Search_loop (fuel : nat) (f : nat -> bool) (i j : nat) : nat :=
  match fuel with
  | O => i
  | S fuel' =>
    if (i <? j)%nat then
      let h := ((i + j) / 2)%nat in
      if negb (f h) then Search_loop fuel' f (h + 1)%nat j
      else Search_loop fuel' f i h
    else i
  end.

Definition sort_Search (n : nat) (f : nat -> bool) : nat :=
  Search_loop n f 0%nat n.

(** ** Consumer.source *)

(** The closure handed to [sort.Search].  It is only called on indices
    below [len(m.mappings)] ([sort_Search_ext]); the value chosen outside
    that range is never looked at.  The query position is written
    [qLine], [qColumn] ([genLine], [genColumn] in the Go text, where the
    record in hand is named [m]). *)
Definition not_before (ms : list mapping) (qLine qColumn : Z) (i : nat) : bool :=
  match ms !! i with
  | Some m =>
    if genLine m =? qLine then genColumn m >=? qColumn
    else genLine m >=? qLine
  | None => true
  end.

(** Rendering of the selected name (the type switch). *)
Definition render_name (v : json_value) : string :=
  match v with
  | JString s => s
  | JNumber x => strconv_FormatFloat x "f"%char (-1) 64
  | _ => fmt_Sprint v
  end.

(** [m.Sources[i]] and [m.Names[i]] for an [int] index known to be
    non-negative: out of range is a run-time panic. *)
Definition index {A : Type} (l : list A) (i : Z) : outcome A :=
  match l !! Z.to_nat i with
  | Some a => Ret a
  | None => Panic IndexOutOfRange
  end.

(** The tail of [source], from the test of [match.sourcesInd] on: what is
    returned once the record [match_] is chosen. *)
Definition resolve (m : sourceMap) (match_ : mapping) : outcome lookup_result :=
  let* src :=
    (if sourcesInd match_ >=? 0 then
       let* s := index (Sources m) (sourcesInd match_) in Ret (absSource m s)
     else Ret ""%string) in
  let* name :=
    (if namesInd match_ >=? 0 then
       let* v := index (Names m) (namesInd match_) in Ret (render_name v)
     else Ret ""%string) in
  Ret {| res_source := src; res_name := name;
         res_line := sourceLine match_; res_column := sourceColumn match_;
         res_ok := true |}.

Definition source (mp : option sourceMap) (qLine qColumn : Z)
  : outcome lookup_result :=
  match mp with
  | None => Panic NilDereference
  | Some m =>
    let n := length (mappings m) in
    let i := sort_Search n (not_before (mappings m) qLine qColumn) in
    (* Mapping not found. *)
    if (i =? n)%nat then Ret not_found
    else
      let* match_ := index (mappings m) (Z.of_nat i) in
      (* Fuzzy match. *)
      if (genLine match_ >? qLine) || (genColumn match_ >? qColumn) then
        if (i =? 0)%nat then Ret not_found
        else
          let* match_ := index (mappings m) (Z.of_nat (i - 1)) in
          resolve m match_
      else resolve m match_
  end.

(** ** Consumer.Source and Consumer.File *)

Definition selects (s : section) (qLine qColumn : Z) : bool :=
  (Offset_Line s <? qLine)
  || ((int_add (Offset_Line s) 1 =? qLine) && (Offset_Column s <=? qColumn)).

(** The [for i := range c.sections] loop with its early [return]. *)
Fixpoint Source_loop (ss : list section) (qLine qColumn : Z)
  : outcome lookup_result :=
  match ss with
  | [] => Ret not_found
  | s :: rest =>
    if selects s qLine qColumn then
      let qLine := int_sub qLine (Offset_Line s) in
      let qColumn := int_sub qColumn (Offset_Column s) in
      source (Map s) qLine qColumn
    else Source_loop rest qLine qColumn
  end.

Definition Source (c : Consumer) (qLine qColumn : Z) : outcome lookup_result :=
  Source_loop (sections c) qLine qColumn.

Definition Consumer_File (c : Consumer) : string := file c.

(** ** reverse

    [last := len(ss) - 1; for i := 0; i < len(ss)/2; i++ { ss[i], ss[last-i] =
    ss[last-i], ss[i] }], as [len(ss)/2] turns of the loop body. *)

Definition swap {A : Type} (i j : nat) (ss : list A) : list A :=
  match ss !! i, ss !! j with
  | Some a, Some b => <[j:=a]> (<[i:=b]> ss)
  | _, _ => ss
  end.

Fixpoint reverse_loop {A : Type} (turns i last : nat) (ss : list A) : list A :=
  match turns with
  | O => ss
  | S turns' => reverse_loop turns' (S i) last (swap i (last - i) ss)
  end.

Definition reverse {A : Type} (ss : list A) : list A :=
  reverse_loop (length ss / 2) 0 (length ss - 1) ss.

(** ** Parse *)

(** [for _, s := range v3.Sections { err := s.Map.parse(mapURL); ... }]:
    the maps are updated through their pointers, so the list comes back
    with the parsed maps in place.  [parse] on a nil receiver panics at
    its first field access. *)
Fixpoint parse_sections (ss : list section) (mapURL : string)
  : outcome (result error (list section)) :=
  match ss with
  | [] => Ret (Ok [])
  | s :: rest =>
    match Map s with
    | None => Panic NilDereference
    | Some m =>
      match parse m mapURL with
      | Err err => Ret (Err err)
      | Ok m' =>
        let* r := parse_sections rest mapURL in
        match r with
        | Err err => Ret (Err err)
        | Ok rest' =>
          Ret (Ok ({| Offset_Line := Offset_Line s;
                      Offset_Column := Offset_Column s;
                      Map := Some m' |} :: rest'))
        end
      end
    end
  end.

Definition Parse (mapURL : string) (b : list Byte.byte)
  : outcome (result error Consumer) :=
  match json_Unmarshal b with
  | Err e => Ret (Err (MalformedDocument e))
  | Ok v =>
    match checkVersion (Version (v3_sourceMap v)) with
    | Some err => Ret (Err err)
    | None =>
      let ss :=
        if (length (Sections v) =? 0)%nat then
          Sections v ++ [ {| Offset_Line := 0; Offset_Column := 0;
                             Map := Some (v3_sourceMap v) |} ]
        else Sections v in
      let* r := parse_sections ss mapURL in
      match r with
      | Err err => Ret (Err err)
      | Ok ss' => Ret (Ok {| file := File (v3_sourceMap v);
                             sections := reverse ss' |})
      end
    end
  end.

End Model.

Arguments json_value : clear implicits.
Arguments json_value {T}.

(** ** Specification vocabulary *)

(** The generated position of a record, and the lexicographic order on
    positions. *)
Definition pos (m : mapping) : Z * Z := (genLine m, genColumn m).

Definition pos_lt (p q : Z * Z) : Prop :=
  fst p < fst q \/ (fst p = fst q /\ snd p < snd q).

Definition pos_le (p q : Z * Z) : Prop :=
  fst p < fst q \/ (fst p = fst q /\ snd p <= snd q).

Definition pos_leb (p q : Z * Z) : bool :=
  (fst p <? fst q) || ((fst p =? fst q) && (snd p <=? snd q)).

(** [records] is non-decreasing in (genLine, genColumn). *)
Fixpoint sortedb (ms : list mapping) : bool :=
  match ms with
  | a :: (b :: _) as rest => pos_leb (pos a) (pos b) && sortedb rest
  | _ => true
  end.

Definition sorted (ms : list mapping) : Prop := sortedb ms = true.

(** The versions [checkVersion] lets through. *)
Definition supported (version : Z) : Prop := version = 3 \/ version = 0.

(** The rule by which a section owns a query position, as section 4.5 of
    the specification words it (the sum is the one of [int]). *)
Definition matches `{T : GoTypes} (s : section) (qLine qColumn : Z) : Prop :=
  Offset_Line s < qLine
  \/ (int_add (Offset_Line s) 1 = qLine /\ Offset_Column s <= qColumn).

(** The index of the record [source] resolves, read off its text: the
    result of the search, stepped back by one on a fuzzy match. *)
Definition selected (ms : list mapping) (qLine qColumn : Z) : option nat :=
  let i := sort_Search (length ms) (not_before ms qLine qColumn) in
  match ms !! i with
  | None => None
  | Some r =>
    if (genLine r >? qLine) || (genColumn r >? qColumn) then
      if (i =? 0)%nat then None else Some (i - 1)%nat
    else Some i
  end.

(** The section's map is there and [sourceMap.parse] accepts it. *)
Definition parses `{L : GoLib} (mapURL : string) (s : section) : Prop :=
  exists m m', Map s = Some m /\ parse m mapURL = Ok m'.

(** What a successful run of the loop of [Parse] leaves of a section: its
    map was there and parsed, its offset is untouched. *)
Definition parsed_as `{L : GoLib} (mapURL : string) (s s' : section) : Prop :=
  exists m m', Map s = Some m /\ parse m mapURL = Ok m' /\
    s' = {| Offset_Line := Offset_Line s; Offset_Column := Offset_Column s;
            Map := Some m' |}.

(** The sections [Parse] goes through: those of the document, or, when it
    has none, the implicit one at offset (0, 0) around the top-level map. *)
Definition document_sections `{T : GoTypes} (d : v3) : list section :=
  if (length (Sections d) =? 0)%nat then
    Sections d ++ [ {| Offset_Line := 0; Offset_Column := 0;
                       Map := Some (v3_sourceMap d) |} ]
  else Sections d.

(** What the specification promises of the lookup at the position of a
    record [r] (section 8): it is found, with the source of [r] made
    absolute, its name rendered, and its source line and column. *)
Definition lookup_returns `{L : GoLib} (m : sourceMap) (r : mapping) : Prop :=
  exists res,
    source (Some m) (genLine r) (genColumn r) = Ret res
    /\ res_ok res = true
    /\ (if sourcesInd r >=? 0
        then exists s, Sources m !! Z.to_nat (sourcesInd r) = Some s
                       /\ res_source res = absSource m s
        else res_source res = ""%string)
    /\ (if namesInd r >=? 0
        then exists v, Names m !! Z.to_nat (namesInd r) = Some v
                       /\ res_name res = render_name v
        else res_name res = ""%string)
    /\ res_line res = sourceLine r
    /\ res_column res = sourceColumn r.

(** The indices of a record lie within [Sources] and [Names]. *)
Definition indices_in_range `{T : GoTypes} (m : sourceMap) (r : mapping) : Prop :=
  sourcesInd r < Z.of_nat (length (Sources m))
  /\ namesInd r < Z.of_nat (length (Names m)).

(** The slice in [reverse] after the turns [0 .. i-1]: the first [i] and
    the last [i] elements are mirrored and the middle is as it was. *)
Definition mirrored {A : Type} (ss l : list A) (i : nat) : Prop :=
  length l = length ss
  /\ forall p, (p < length ss)%nat ->
       l !! p = if (p <? i)%nat || (length ss - i <=? p)%nat
                then ss !! (length ss - 1 - p)%nat else ss !! p.

(** The offset lines of the stored sections never go up. *)
Fixpoint descending `{T : GoTypes} (ss : list section) : Prop :=
  match ss with
  | [] => True
  | s :: rest =>
    (forall s', In s' rest -> Offset_Line s' <= Offset_Line s)
    /\ descending rest
  end.

(** The resolved root as section 4.2 of the specification words it: the
    source root when it is an absolute URL, otherwise the directory of
    the origin when that is an absolute URL, otherwise nothing. *)
Definition spec_resolvedRoot `{L : GoLib} (sourceRoot origin : string)
  : option URL :=
  match url_Parse sourceRoot, url_Parse origin with
  | Ok u, Ok o =>
    if URL_IsAbs u then Some u
    else if URL_IsAbs o then Some (URL_set_Path o (path_Dir (URL_Path o)))
    else None
  | Ok u, Err _ => if URL_IsAbs u then Some u else None
  | Err _, Ok o =>
    if URL_IsAbs o then Some (URL_set_Path o (path_Dir (URL_Path o)))
    else None
  | Err _, Err _ => None
  end.

(** ** A concrete library for the examples

    A small instance of [GoLib] on which the definitions above compute.
    It covers the fragment of net/url and path the examples need and
    agrees with Go there: URLs are either [http://host/path] or a plain
    relative or rooted path, over letters, digits and [. / - _]; on any
    other string the instance gives up with an error of its own.  Numbers
    are the integers (a [float64] holding an integer below 2^53 in
    magnitude), which [FormatFloat(v, 'f', -1, 64)] prints in plain
    decimal.  [json.Unmarshal] is a table of the documents used. *)

Record demo_url : Type := {
  Scheme : string;
  Host : string;
  Path : string
}.

Definition demo_types : GoTypes := {|
  URL := demo_url;
  float64 := Z
|}.

Section DemoLibrary.
Existing Instance demo_types.

Definition plain_char (c : ascii) : bool :=
  let n := nat_of_ascii c in
  ((97 <=? n) && (n <=? 122) || (65 <=? n) && (n <=? 90)
   || (48 <=? n) && (n <=? 57))%nat
  || Ascii.eqb c "."%char || Ascii.eqb c "/"%char
  || Ascii.eqb c "-"%char || Ascii.eqb c "_"%char.

Fixpoint all_plain (s : string) : bool :=
  match s with
  | EmptyString => true
  | String c s' => plain_char c && all_plain s'
  end.

(** [strings.Split(s, "/")] and [strings.Join(l, "/")]. *)
Fixpoint split_slash (s : string) : list string :=
  match s with
  | EmptyString => [EmptyString]
  | String c s' =>
    if Ascii.eqb c "/"%char then EmptyString :: split_slash s'
    else match split_slash s' with
         | h :: t => String c h :: t
         | [] => [String c EmptyString]
         end
  end.

Fixpoint join_slash (l : list string) : string :=
  match l with
  | [] => ""
  | [x] => x
  | x :: rest => x +:+ "/" +:+ join_slash rest
  end.

(** [path.Clean]: the elements of the path are taken one by one onto a
    stack; empty elements and [.] are dropped, [..] undoes the element
    before it (and is dropped at the root). *)
Fixpoint clean_elems (rooted : bool) (stack elems : list string) : list string :=
  match elems with
  | [] => rev stack
  | e :: rest =>
    if String.eqb e "" || String.eqb e "." then clean_elems rooted stack rest
    else if String.eqb e ".." then
      match stack with
      | top :: below =>
        if String.eqb top ".." then clean_elems rooted (e :: stack) rest
        else clean_elems rooted below rest
      | [] =>
        if rooted then clean_elems rooted stack rest
        else clean_elems rooted (e :: stack) rest
      end
    else clean_elems rooted (e :: stack) rest
  end.

Definition demo_IsAbs (p : string) : bool :=
  match p with
  | String c _ => Ascii.eqb c "/"%char
  | EmptyString => false
  end.

Definition demo_Clean (p : string) : string :=
  let rooted := demo_IsAbs p in
  let body := join_slash (clean_elems rooted [] (split_slash p)) in
  let out := if rooted then "/" +:+ body else body in
  if String.eqb out "" then "." else out.

(** [path.Dir]: everything up to the last slash, cleaned. *)
Definition demo_Dir (p : string) : string :=
  match rev (split_slash p) with
  | _ :: before => demo_Clean (join_slash (rev (EmptyString :: before)))
  | [] => "."
  end.

(** [path.Join] of two elements: empty elements are ignored. *)
Definition demo_Join (a b : string) : string :=
  if String.eqb a "" then (if String.eqb b "" then "" else demo_Clean b)
  else if String.eqb b "" then demo_Clean a
  else demo_Clean (a +:+ "/" +:+ b).

Definition refused : string := "outside the modelled fragment".

Definition demo_url_Parse (s : string) : result string demo_url :=
  if String.prefix "http://" s then
    let rest := String.substring 7 (String.length s - 7) s in
    match split_slash rest with
    | host :: elems =>
      if all_plain rest && negb (String.eqb host "") then
        Ok {| Scheme := "http"; Host := host;
              Path := match elems with
                      | [] => ""
                      | _ => "/" +:+ join_slash elems
                      end |}
      else Err refused
    | [] => Err refused
    end
  else if all_plain s && negb (String.prefix "//" s) then
    Ok {| Scheme := ""; Host := ""; Path := s |}
  else Err refused.

Definition demo_url_String (u : demo_url) : string :=
  if String.eqb (Scheme u) "" then Path u
  else Scheme u +:+ "://" +:+ Host u +:+
       (if demo_IsAbs (Path u) || String.eqb (Path u) "" then Path u
        else "/" +:+ Path u).

Definition demo_Sprint (v : json_value) : string :=
  match v with
  | JNull => "<nil>"
  | JBool true => "true"
  | JBool false => "false"
  | JNumber x => pretty.pretty (x : Z)
  | JString s => s
  | _ => refused
  end.

(** A source map as [json.Unmarshal] leaves it: the unexported fields
    hold their zero values. *)
Definition decoded `{T : GoTypes} (version : Z) (file sourceRoot : string)
    (sources : list string) (names : list json_value) (mappings_ : string)
  : sourceMap :=
  {| Version := version; File := file; SourceRoot := sourceRoot;
     Sources := sources; Names := names; Mappings := mappings_;
     sourceRootURL := None; mappings := [] |}.

(** Double quotes of the documents below are written as apostrophes. *)
Fixpoint quoted (s : string) : string :=
  match s with
  | EmptyString => EmptyString
  | String c s' =>
    String (if Ascii.eqb c "'"%char then ascii_of_nat 34 else c) (quoted s')
  end.

Definition document (s : string) : list Byte.byte :=
  String.list_byte_of_string (quoted s).

(** Modelled from the spec: the decoder [parseMappings] is in mappings.go
    of the package, not in consumer.go.  Of the mapping streams only the
    one-entry stream [AAAA] is decoded here, read as section 4.3 of the
    specification has it: four zero deltas, no name. *)
Definition demo_parseMappings (s : string) : result string (list mapping) :=
  if String.eqb s "AAAA" then
    Ok [ {| genLine := 0; genColumn := 0; sourcesInd := 0; sourceLine := 0;
            sourceColumn := 0; namesInd := -1 |} ]
  else Err refused.

(** The documents of the examples, each with the value [json.Unmarshal]
    fills a fresh [v3] with. *)
Definition doc_flat : list Byte.byte :=
  document "{'version':3,'file':'app.js','sources':['a.js'],'names':[],'mappings':'AAAA'}".

Definition v3_flat : v3 :=
  {| v3_sourceMap := decoded 3 "app.js" "" ["a.js"] [] "AAAA";
     Sections := [] |}.

Definition doc_version2 : list Byte.byte :=
  document "{'version':2,'sources':['a.js'],'names':[],'mappings':'AAAA'}".

Definition v3_version2 : v3 :=
  {| v3_sourceMap := decoded 2 "" "" ["a.js"] [] "AAAA";
     Sections := [] |}.

Definition doc_section_version2 : list Byte.byte :=
  document "{'version':3,'sections':[{'offset':{'line':0,'column':0},'map':{'version':2,'sources':['a.js'],'names':[],'mappings':'AAAA'}}]}".

Definition v3_section_version2 : v3 :=
  {| v3_sourceMap := decoded 3 "" "" [] [] "";
     Sections := [ {| Offset_Line := 0; Offset_Column := 0;
                      Map := Some (decoded 2 "" "" ["a.js"] [] "AAAA") |} ] |}.

Definition doc_indexed : list Byte.byte :=
  document "{'version':3,'file':'bundle.js','sections':[{'offset':{'line':0,'column':0},'map':{'version':3,'sources':['a.js'],'names':[],'mappings':'AAAA'}},{'offset':{'line':5,'column':10},'map':{'version':3,'sources':['b.js'],'names':[],'mappings':'AAAA'}}]}".

Definition v3_indexed : v3 :=
  {| v3_sourceMap := decoded 3 "bundle.js" "" [] [] "";
     Sections :=
       [ {| Offset_Line := 0; Offset_Column := 0;
            Map := Some (decoded 3 "" "" ["a.js"] [] "AAAA") |};
         {| Offset_Line := 5; Offset_Column := 10;
            Map := Some (decoded 3 "" "" ["b.js"] [] "AAAA") |} ] |}.

(** An indexed document whose only section has an offset and no map. *)
Definition doc_section_without_map : list Byte.byte :=
  document "{'version':3,'sections':[{'offset':{'line':0,'column':0}}]}".

Definition v3_section_without_map : v3 :=
  {| v3_sourceMap := decoded 3 "" "" [] [] "";
     Sections := [ {| Offset_Line := 0; Offset_Column := 0; Map := None |} ] |}.

Definition demo_documents : list (list Byte.byte * v3) :=
  [ (doc_flat, v3_flat); (doc_version2, v3_version2);
    (doc_section_version2, v3_section_version2);
    (doc_indexed, v3_indexed);
    (doc_section_without_map, v3_section_without_map) ].

Fixpoint demo_lookup (b : list Byte.byte) (docs : list (list Byte.byte * v3))
  : result string v3 :=
  match docs with
  | [] => Err refused
  | (d, v) :: rest =>
    if String.eqb (String.string_of_list_byte b) (String.string_of_list_byte d)
    then Ok v else demo_lookup b rest
  end.

Definition demo_lib : GoLib := {|
  json_Unmarshal := fun b => demo_lookup b demo_documents;
  url_Parse := demo_url_Parse;
  URL_IsAbs := fun u => negb (String.eqb (Scheme u) "");
  URL_Path := Path;
  URL_set_Path := fun u p => {| Scheme := Scheme u; Host := Host u; Path := p |};
  URL_String := demo_url_String;
  path_IsAbs := demo_IsAbs;
  path_Dir := demo_Dir;
  path_Join := demo_Join;
  strconv_FormatFloat := fun x _ _ _ => pretty.pretty (x : Z);
  fmt_Sprint := demo_Sprint;
  parseMappings := demo_parseMappings
|}.

(** A map with three records, a resolved root and a numeric name. *)
Definition demo_records : list mapping :=
  [ {| genLine := 1; genColumn := 0; sourcesInd := 0; sourceLine := 1;
       sourceColumn := 0; namesInd := 0 |};
    {| genLine := 1; genColumn := 10; sourcesInd := 1; sourceLine := 2;
       sourceColumn := 4; namesInd := 1 |};
    {| genLine := 2; genColumn := 4; sourcesInd := 1; sourceLine := 7;
       sourceColumn := 2; namesInd := -1 |} ].

Definition demo_map : sourceMap :=
  {| Version := 3; File := "app.js"; SourceRoot := "";
     Sources := ["/src/a.js"; "lib/b.js"];
     Names := [JString "main"; JNumber 42];
     Mappings := "";
     sourceRootURL :=
       Some {| Scheme := "http"; Host := "example.com"; Path := "/js" |};
     mappings := demo_records |}.

(** Two records at one generated position, as an entry with a zero
    column delta leaves them. *)
Definition dup_first : mapping :=
  {| genLine := 1; genColumn := 0; sourcesInd := 0; sourceLine := 1;
     sourceColumn := 0; namesInd := -1 |}.

Definition dup_second : mapping :=
  {| genLine := 1; genColumn := 0; sourcesInd := 0; sourceLine := 2;
     sourceColumn := 5; namesInd := -1 |}.

Definition dup_map : sourceMap :=
  {| Version := 3; File := "app.js"; SourceRoot := "";
     Sources := ["/src/a.js"]; Names := []; Mappings := "";
     sourceRootURL := None; mappings := [dup_first; dup_second] |}.

(** A decoded map with a relative source root, and the place its
    document was fetched from. *)
Definition relative_root_map : sourceMap :=
  decoded 3 "app.js" "src" ["a.js"] [] "AAAA".

Definition origin : string := "http://example.com/js/app.js.map".

(** What the decoder leaves of [AAAA]. *)
Definition one_record : list mapping :=
  [ {| genLine := 0; genColumn := 0; sourcesInd := 0; sourceLine := 0;
       sourceColumn := 0; namesInd := -1 |} ].

(** The consumer of [doc_indexed]. *)
Definition section_b : section :=
  {| Offset_Line := 5; Offset_Column := 10;
     Map := Some (set_mappings (decoded 3 "" "" ["b.js"] [] "AAAA") one_record) |}.

Definition section_a : section :=
  {| Offset_Line := 0; Offset_Column := 0;
     Map := Some (set_mappings (decoded 3 "" "" ["a.js"] [] "AAAA") one_record) |}.

Definition demo_consumer : Consumer :=
  {| file := "bundle.js"; sections := [section_b; section_a] |}.

(** The maps and the consumer that parsing the flat examples gives. *)
Definition origin_dir : demo_url :=
  {| Scheme := "http"; Host := "example.com"; Path := "/js" |}.

Definition flat_map : sourceMap := decoded 3 "app.js" "" ["a.js"] [] "AAAA".

Definition flat_map_parsed : sourceMap :=
  set_mappings (set_sourceRootURL flat_map (Some origin_dir)) one_record.

Definition relative_root_map_parsed : sourceMap :=
  set_mappings relative_root_map one_record.

Definition flat_consumer : Consumer :=
  {| file := "app.js";
     sections := [ {| Offset_Line := 0; Offset_Column := 0;
                      Map := Some (set_mappings flat_map one_record) |} ] |}.

(** Records that are not sorted. *)
Definition unsorted_map : sourceMap :=
  {| Version := 3; File := "app.js"; SourceRoot := "";
     Sources := ["/src/a.js"]; Names := []; Mappings := "";
     sourceRootURL := None;
     mappings :=
       [ {| genLine := 3; genColumn := 0; sourcesInd := 0; sourceLine := 30;
            sourceColumn := 0; namesInd := -1 |};
         {| genLine := 1; genColumn := 0; sourcesInd := 0; sourceLine := 10;
            sourceColumn := 0; namesInd := -1 |};
         {| genLine := 2; genColumn := 0; sourcesInd := 0; sourceLine := 20;
            sourceColumn := 0; namesInd := -1 |} ] |}.

(** A record that names the fourth source of a map with one source. *)
Definition stray_record : mapping :=
  {| genLine := 1; genColumn := 0; sourcesInd := 3; sourceLine := 1;
     sourceColumn := 0; namesInd := -1 |}.

Definition stray_map : sourceMap :=
  {| Version := 3; File := "app.js"; SourceRoot := "";
     Sources := ["/src/a.js"]; Names := []; Mappings := "";
     sourceRootURL := None; mappings := [stray_record] |}.

(** A string that [url.Parse] refuses (an invalid escape), as an origin
    and as the source root of a decoded map; and a decoded map whose
    mappings the decoder refuses. *)
Definition bad_url : string := "%%".

Definition bad_root_map : sourceMap :=
  decoded 3 "app.js" bad_url ["a.js"] [] "AAAA".

Definition bad_mappings_map : sourceMap :=
  decoded 3 "app.js" "" ["a.js"] [] "!".

End DemoLibrary.

(** * Properties *)

(** A section does not own a concrete query position. *)
Ltac no_match :=
  unfold matches; simpl;
  let H := fresh in let H' := fresh in
  intros [H | [H H']]; [lia | first [lia | vm_compute in H; discriminate]].

(** A concrete number is an [int]. *)
Ltac int_range := unfold is_int, int_min, int_max; simpl; lia.

(** ** Integer arithmetic without overflow *)

Lemma wrap_id z : is_int z -> wrap z = z.
Proof.
  unfold is_int, int_min, int_max, wrap. intros Hz.
  rewrite Z.mod_small by lia. lia.
Qed.

Lemma int_add_exact a b : is_int (a + b) -> int_add a b = a + b.
Proof. apply wrap_id. Qed.

Lemma int_sub_exact a b : is_int (a - b) -> int_sub a b = a - b.
Proof. apply wrap_id. Qed.

Lemma nonempty_true s : nonempty s = true <-> s <> ""%string.
Proof.
  unfold nonempty. rewrite negb_true_iff. apply String.eqb_neq.
Qed.

Lemma nonempty_false s : nonempty s = false <-> s = ""%string.
Proof.
  unfold nonempty. rewrite negb_false_iff. apply String.eqb_eq.
Qed.

(** ** sort.Search *)

Lemma half_between i j : (i < j)%nat -> (i <= (i + j) / 2 < j)%nat.
Proof.
  intros Hij. pose proof (Nat.div_mod_eq (i + j) 2) as Hd.
  pose proof (Nat.mod_upper_bound (i + j) 2) as Hm. lia.
Qed.

(** What the loop guarantees for any [f]: the result lies in [[i, j]], [f]
    is false just below it and true at it (unless it is an end point). *)
Lemma Search_loop_bounds fuel f : forall i j,
  (i <= j)%nat -> (j - i <= fuel)%nat ->
  let r := Search_loop fuel f i j in
  (i <= r <= j)%nat
  /\ (r = i \/ f (r - 1)%nat = false)
  /\ (r = j \/ f r = true).
Proof.
  induction fuel as [|fuel IH]; intros i j Hij Hfuel; cbn [Search_loop].
  - assert (i = j) by lia. subst. auto with lia.
  - destruct (Nat.ltb_spec i j) as [Hlt|Hge].
    + pose proof (half_between i j Hlt) as Hh.
      destruct (f ((i + j) / 2)%nat) eqn:Hf; cbn [negb].
      * destruct (IH i ((i + j) / 2)%nat) as (Hb & Hlo & Hhi); [lia..|].
        split; [lia|]. split; [exact Hlo|].
        destruct Hhi as [-> | Hhi]; auto.
      * destruct (IH ((i + j) / 2 + 1)%nat j) as (Hb & Hlo & Hhi); [lia..|].
        split; [lia|]. split; [|exact Hhi].
        destruct Hlo as [-> | Hlo]; [|auto].
        right. replace ((i + j) / 2 + 1 - 1)%nat with ((i + j) / 2)%nat by lia.
        exact Hf.
    + assert (i = j) by lia. subst. auto with lia.
Qed.

(** The loop has ended when the budget is at least [j - i]: a larger
    budget changes nothing. *)
Lemma Search_loop_fuel f : forall fuel1 fuel2 i j,
  (j - i <= fuel1)%nat -> (j - i <= fuel2)%nat ->
  Search_loop fuel1 f i j = Search_loop fuel2 f i j.
Proof.
  induction fuel1 as [|fuel1 IH]; intros fuel2 i j H1 H2.
  - destruct fuel2; cbn [Search_loop]; [reflexivity|].
    destruct (Nat.ltb_spec i j); [lia | reflexivity].
  - destruct fuel2; cbn [Search_loop].
    + destruct (Nat.ltb_spec i j); [lia | reflexivity].
    + destruct (Nat.ltb_spec i j) as [Hlt|Hge]; [|reflexivity].
      pose proof (half_between i j Hlt) as Hh.
      destruct (f ((i + j) / 2)%nat); cbn [negb]; apply IH; lia.
Qed.

(** [f] is only called inside [[i, j)]. *)
Lemma Search_loop_ext f g : forall fuel i j,
  (forall k, (i <= k < j)%nat -> f k = g k) ->
  Search_loop fuel f i j = Search_loop fuel g i j.
Proof.
  induction fuel as [|fuel IH]; intros i j Hfg; cbn [Search_loop]; [reflexivity|].
  destruct (Nat.ltb_spec i j) as [Hlt|Hge]; [|reflexivity].
  pose proof (half_between i j Hlt) as Hh.
  rewrite <- (Hfg ((i + j) / 2)%nat) by lia.
  destruct (f ((i + j) / 2)%nat); cbn [negb]; apply IH; intros k Hk; apply Hfg; lia.
Qed.

Lemma sort_Search_ext n f g :
  (forall k, (k < n)%nat -> f k = g k) -> sort_Search n f = sort_Search n g.
Proof. intros H. apply Search_loop_ext. intros k Hk. apply H. lia. Qed.

Lemma sort_Search_bounds n f :
  let r := sort_Search n f in
  (r <= n)%nat /\ (r = 0%nat \/ f (r - 1)%nat = false) /\ (r = n \/ f r = true).
Proof.
  destruct (Search_loop_bounds n f 0 n) as (Hb & Hlo & Hhi); [lia..|].
  unfold sort_Search. simpl. split; [lia|]. auto.
Qed.

(** On a predicate that, once true, stays true up to [n], the result is
    the least index where it holds ([n] if there is none). *)
Lemma sort_Search_least n f :
  (forall a b, (a <= b < n)%nat -> f a = true -> f b = true) ->
  let r := sort_Search n f in
  (r <= n)%nat
  /\ (forall k, (k < r)%nat -> f k = false)
  /\ (forall k, (r <= k < n)%nat -> f k = true).
Proof.
  intros Hmono. destruct (sort_Search_bounds n f) as (Hb & Hlo & Hhi).
  simpl. split; [exact Hb|]. split.
  - intros k Hk. destruct Hlo as [H0 | Hlo]; [lia|].
    destruct (f k) eqn:Hfk; [|reflexivity].
    rewrite (Hmono k (sort_Search n f - 1)%nat) in Hlo by (auto; lia).
    discriminate.
  - intros k Hk. destruct Hhi as [Hn | Hhi]; [lia|].
    apply (Hmono (sort_Search n f) k); [lia | exact Hhi].
Qed.

(** ** Positions and sorted records *)

Lemma pos_leb_le p q : pos_leb p q = true <-> pos_le p q.
Proof. unfold pos_leb, pos_le. destruct p, q; simpl. lia. Qed.

Lemma pos_le_refl p : pos_le p p.
Proof. unfold pos_le. lia. Qed.

Lemma pos_le_trans p q r : pos_le p q -> pos_le q r -> pos_le p r.
Proof. unfold pos_le. lia. Qed.

Lemma pos_lt_not_le p q : pos_lt p q -> ~ pos_le q p.
Proof. unfold pos_le, pos_lt. lia. Qed.

Lemma pos_le_or_lt p q : pos_le p q \/ pos_lt q p.
Proof. unfold pos_le, pos_lt. lia. Qed.

Lemma pos_le_antisym p q : pos_le p q -> pos_le q p -> p = q.
Proof. unfold pos_le. destruct p, q; simpl. intros. f_equal; lia. Qed.

Lemma sorted_cons a ms :
  sorted (a :: ms) ->
  sorted ms /\ forall j b, ms !! j = Some b -> pos_le (pos a) (pos b).
Proof.
  unfold sorted. revert a. induction ms as [|b ms IH]; intros a H.
  - split; [reflexivity|]. intros j b Hj. destruct j; discriminate.
  - simpl in H. apply andb_prop in H as [Hab Hrest].
    apply pos_leb_le in Hab. split; [exact Hrest|].
    intros [|j] c Hj; simpl in Hj.
    + injection Hj as <-. exact Hab.
    + destruct (IH b Hrest) as [_ Hb].
      eapply pos_le_trans; [exact Hab | exact (Hb j c Hj)].
Qed.

Lemma sorted_lookup ms :
  sorted ms ->
  forall i j a b, (i <= j)%nat -> ms !! i = Some a -> ms !! j = Some b ->
  pos_le (pos a) (pos b).
Proof.
  induction ms as [|x ms IH]; intros Hs i j a b Hij Hi Hj.
  - destruct i; discriminate.
  - destruct (sorted_cons _ _ Hs) as [Hs' Hx].
    destruct i as [|i]; simpl in Hi.
    + injection Hi as <-. destruct j as [|j]; simpl in Hj.
      * injection Hj as <-. apply pos_le_refl.
      * exact (Hx j b Hj).
    + destruct j as [|j]; [lia|]. simpl in Hj.
      exact (IH Hs' i j a b ltac:(lia) Hi Hj).
Qed.

Lemma not_before_true ms qLine qColumn i r :
  ms !! i = Some r ->
  not_before ms qLine qColumn i = true <-> pos_le (qLine, qColumn) (pos r).
Proof.
  intros Hi. unfold not_before, pos_le, pos. rewrite Hi. simpl.
  destruct (Z.eqb_spec (genLine r) qLine); lia.
Qed.

Lemma not_before_false ms qLine qColumn i r :
  ms !! i = Some r ->
  not_before ms qLine qColumn i = false <-> pos_lt (pos r) (qLine, qColumn).
Proof.
  intros Hi. unfold not_before, pos_lt, pos. rewrite Hi. simpl.
  destruct (Z.eqb_spec (genLine r) qLine); lia.
Qed.

(** The search of [source] on sorted records: the first record that is not
    before the query. *)
Lemma search_first ms qLine qColumn :
  sorted ms ->
  let i := sort_Search (length ms) (not_before ms qLine qColumn) in
  (i <= length ms)%nat
  /\ (forall k r, (k < i)%nat -> ms !! k = Some r ->
        pos_lt (pos r) (qLine, qColumn))
  /\ (forall k r, (i <= k)%nat -> ms !! k = Some r ->
        pos_le (qLine, qColumn) (pos r)).
Proof.
  intros Hs.
  destruct (sort_Search_least (length ms) (not_before ms qLine qColumn))
    as (Hb & Hlo & Hhi).
  { intros a b Hab Ha.
    destruct (lookup_lt_is_Some_2 ms a ltac:(lia)) as [ra Hra].
    destruct (lookup_lt_is_Some_2 ms b ltac:(lia)) as [rb Hrb].
    apply (not_before_true _ _ _ _ _ Hrb).
    apply (not_before_true _ _ _ _ _ Hra) in Ha.
    eapply pos_le_trans; [exact Ha|].
    exact (sorted_lookup ms Hs a b ra rb ltac:(lia) Hra Hrb). }
  simpl. split; [exact Hb|]. split.
  - intros k r Hk Hr. apply (not_before_false _ _ _ _ _ Hr). apply Hlo, Hk.
  - intros k r Hk Hr. apply (not_before_true _ _ _ _ _ Hr). apply Hhi.
    apply lookup_lt_Some in Hr. lia.
Qed.

(** The least index is unique. *)
Lemma search_first_unique ms qLine qColumn i r :
  sorted ms ->
  ms !! i = Some r ->
  pos_le (qLine, qColumn) (pos r) ->
  (forall j r', (j < i)%nat -> ms !! j = Some r' ->
     pos_lt (pos r') (qLine, qColumn)) ->
  sort_Search (length ms) (not_before ms qLine qColumn) = i.
Proof.
  intros Hs Hi Hle Hbefore.
  destruct (search_first ms qLine qColumn Hs) as (Hb & Hlo & Hhi).
  set (i0 := sort_Search (length ms) (not_before ms qLine qColumn)) in *.
  destruct (Nat.lt_trichotomy i0 i) as [Hlt | [Heq | Hgt]]; [|exact Heq|].
  - exfalso. pose proof (lookup_lt_Some _ _ _ Hi) as Hlen.
    destruct (lookup_lt_is_Some_2 ms i0 ltac:(lia)) as [r0 Hr0].
    apply (pos_lt_not_le _ _ (Hbefore i0 r0 Hlt Hr0)).
    exact (Hhi i0 r0 ltac:(lia) Hr0).
  - exfalso. apply (pos_lt_not_le _ _ (Hlo i r Hgt Hi)). exact Hle.
Qed.

Lemma search_none ms qLine qColumn :
  sorted ms ->
  (forall r, In r ms -> pos_lt (pos r) (qLine, qColumn)) ->
  sort_Search (length ms) (not_before ms qLine qColumn) = length ms.
Proof.
  intros Hs Hall.
  destruct (search_first ms qLine qColumn Hs) as (Hb & Hlo & Hhi).
  set (i0 := sort_Search (length ms) (not_before ms qLine qColumn)) in *.
  destruct (Nat.eq_dec i0 (length ms)) as [Heq|Hne]; [exact Heq|].
  exfalso. destruct (lookup_lt_is_Some_2 ms i0 ltac:(lia)) as [r0 Hr0].
  apply (pos_lt_not_le (pos r0) (qLine, qColumn)).
  - apply Hall. apply list_elem_of_In. eapply list_elem_of_lookup_2, Hr0.
  - exact (Hhi i0 r0 ltac:(lia) Hr0).
Qed.

Section Properties.
Context {T : GoTypes} {L : GoLib}.

(** ** checkVersion and the version checks of Parse *)

Lemma checkVersion_supported v : supported v -> checkVersion v = None.
Proof. intros [-> | ->]; reflexivity. Qed.


Lemma checkVersion_None v : checkVersion v = None -> supported v.
Proof.
  unfold checkVersion, supported.
  destruct (Z.eqb_spec v 3); [auto|]. destruct (Z.eqb_spec v 0); [auto|].
  discriminate.
Qed.



Lemma parse_sections_first_error pre s m post mapURL err :
  Forall (parses mapURL) pre ->
  Map s = Some m -> parse m mapURL = Err err ->
  parse_sections (pre ++ s :: post) mapURL = Ret (Err err).
Proof.
  intros Hpre Hs Hm. induction Hpre as [|s0 pre (m0 & m0' & Hs0 & Hm0) _ IH]; simpl.
  - rewrite Hs, Hm. reflexivity.
  - rewrite Hs0, Hm0, IH. reflexivity.
Qed.

Lemma parse_sections_first_nil pre s post mapURL :
  Forall (parses mapURL) pre ->
  Map s = None ->
  parse_sections (pre ++ s :: post) mapURL = Panic NilDereference.
Proof.
  intros Hpre Hs. induction Hpre as [|s0 pre (m0 & m0' & Hs0 & Hm0) _ IH]; simpl.
  - rewrite Hs. reflexivity.
  - rewrite Hs0, Hm0, IH. reflexivity.
Qed.

Lemma parse_sections_Ok ss mapURL ss' :
  parse_sections ss mapURL = Ret (Ok ss') -> Forall2 (parsed_as mapURL) ss ss'.
Proof.
  revert ss'. induction ss as [|s ss IH]; simpl; intros ss' H.
  - injection H as <-. constructor.
  - destruct (Map s) as [m|] eqn:Hs; [|discriminate].
    destruct (parse m mapURL) as [m'|e] eqn:Hm; [|discriminate].
    destruct (parse_sections ss mapURL) as [[rest|e]|p]; simpl in H; try discriminate.
    injection H as <-. constructor; [|apply IH; reflexivity].
    exists m, m'. auto.
Qed.



(** ** sourceMap.parse: the resolved root *)

Lemma parse_Ok_root (m m' : sourceMap) mapURL :
  parse m mapURL = Ok m' ->
  sourceRootURL m' =
    if nonempty (SourceRoot m) then
      match url_Parse (SourceRoot m) with
      | Ok u => if URL_IsAbs u then Some u else sourceRootURL m
      | Err _ => sourceRootURL m
      end
    else if nonempty mapURL then
      match url_Parse mapURL with
      | Ok u => if URL_IsAbs u
                then Some (URL_set_Path u (path_Dir (URL_Path u)))
                else sourceRootURL m
      | Err _ => sourceRootURL m
      end
    else sourceRootURL m.
Proof.
  unfold parse. destruct (checkVersion (Version m)); [discriminate|].
  destruct (nonempty (SourceRoot m)).
  - destruct (url_Parse (SourceRoot m)) as [u|e]; [|discriminate].
    destruct (URL_IsAbs u);
      (destruct (parseMappings _); [|discriminate]); intros [= <-]; reflexivity.
  - destruct (nonempty mapURL).
    + destruct (url_Parse mapURL) as [u|e]; [|discriminate].
      destruct (URL_IsAbs u);
        (destruct (parseMappings _); [|discriminate]); intros [= <-]; reflexivity.
    + destruct (parseMappings _); [|discriminate]. intros [= <-]; reflexivity.
Qed.

Lemma parse_Ok_urls (m m' : sourceMap) mapURL :
  parse m mapURL = Ok m' ->
  (SourceRoot m <> ""%string -> exists u, url_Parse (SourceRoot m) = Ok u)
  /\ (SourceRoot m = ""%string -> mapURL <> ""%string ->
      exists u, url_Parse mapURL = Ok u).
Proof.
  unfold parse. destruct (checkVersion (Version m)); [discriminate|].
  destruct (nonempty (SourceRoot m)) eqn:Hr.
  - destruct (url_Parse (SourceRoot m)) as [u|e]; [|discriminate].
    intros _. split; [eauto|]. intros Hr'. apply nonempty_true in Hr. tauto.
  - apply nonempty_false in Hr. destruct (nonempty mapURL) eqn:Hu.
    + destruct (url_Parse mapURL) as [u|e]; [|discriminate].
      intros _. split; [tauto | eauto].
    + apply nonempty_false in Hu. intros _. split; tauto.
Qed.

(** C6 (amended).  For a map as decoded (no root set yet) that
    [sourceMap.parse] accepts: a non-empty source root that is an absolute
    URL is the resolved root; a non-empty source root that is not leaves
    the resolved root empty, whatever the origin; with an empty source
    root, a non-empty origin that is an absolute URL gives the resolved
    root, its path replaced by its directory; otherwise the resolved root
    is empty.  So the code agrees with the rule of the specification
    whenever the source root is empty or an absolute URL. *)
Theorem parse_resolvedRoot (m m' : sourceMap) (mapURL : string) :
  sourceRootURL m = None ->
  parse m mapURL = Ok m' ->
  (forall u, SourceRoot m <> ""%string -> url_Parse (SourceRoot m) = Ok u ->
     URL_IsAbs u = true -> sourceRootURL m' = Some u)
  /\ (SourceRoot m <> ""%string -> is_abs_url (SourceRoot m) = false ->
      sourceRootURL m' = None)
  /\ (forall u, SourceRoot m = ""%string -> mapURL <> ""%string ->
        url_Parse mapURL = Ok u -> URL_IsAbs u = true ->
        sourceRootURL m' = Some (URL_set_Path u (path_Dir (URL_Path u))))
  /\ (SourceRoot m = ""%string ->
      mapURL = ""%string \/ is_abs_url mapURL = false ->
      sourceRootURL m' = None)
  /\ (SourceRoot m = ""%string \/ is_abs_url (SourceRoot m) = true ->
      is_abs_url "" = false ->
      sourceRootURL m' = spec_resolvedRoot (SourceRoot m) mapURL).
Proof.
  intros Hfresh Hp. pose proof (parse_Ok_root _ _ _ Hp) as Hroot.
  pose proof (parse_Ok_urls _ _ _ Hp) as [Hu1 Hu2].
  rewrite Hfresh in Hroot. unfold is_abs_url, spec_resolvedRoot in *.
  destruct (nonempty (SourceRoot m)) eqn:Hr.
  - apply nonempty_true in Hr. destruct (Hu1 Hr) as [u Hu]. rewrite Hu in *.
    split; [|split; [|split; [|split]]].
    + intros u' _ [= <-] Habs. rewrite Habs in Hroot. exact Hroot.
    + intros _ Habs. rewrite Habs in Hroot. exact Hroot.
    + intros u' Hr'. tauto.
    + intros Hr'. tauto.
    + intros [Hr' | Habs] _; [tauto|]. rewrite Habs in *.
      destruct (url_Parse mapURL); exact Hroot.
  - apply nonempty_false in Hr.
    split; [|split; [|split; [|split]]].
    + intros u' Hne. tauto.
    + intros Hne. tauto.
    + intros u _ Hne Hu Habs. apply nonempty_true in Hne.
      rewrite Hne, Hu, Habs in Hroot. exact Hroot.
    + intros _ [-> | Habs]; [exact Hroot|].
      destruct (nonempty mapURL); [|exact Hroot].
      destruct (url_Parse mapURL) as [u|e]; [|exact Hroot].
      rewrite Habs in Hroot. exact Hroot.
    + intros _ Hempty. rewrite Hr in *.
      destruct (nonempty mapURL) eqn:Hne.
      * apply nonempty_true in Hne. destruct (Hu2 eq_refl Hne) as [o Ho].
        rewrite Ho in *. destruct (url_Parse ""%string) as [u0|e0].
        -- rewrite Hempty. exact Hroot.
        -- exact Hroot.
      * apply nonempty_false in Hne. subst mapURL.
        destruct (url_Parse ""%string) as [u0|e0]; [|exact Hroot].
        rewrite Hempty. exact Hroot.
Qed.

(** ** absSource *)

(** C8.  [absSource] returns the name unchanged when it is an absolute
    path or an absolute URL; otherwise, with a resolved root, the root
    with the name joined onto its path, rendered as a URL; otherwise,
    with a non-empty source root, the plain join of root and name;
    otherwise the name unchanged. *)
Theorem absSource_cases (m : sourceMap) (name : string) :
  (path_IsAbs name = true \/ is_abs_url name = true -> absSource m name = name)
  /\ (path_IsAbs name = false -> is_abs_url name = false ->
      (forall root, sourceRootURL m = Some root ->
         absSource m name =
           URL_String (URL_set_Path root (path_Join (URL_Path root) name)))
      /\ (sourceRootURL m = None -> SourceRoot m <> ""%string ->
          absSource m name = path_Join (SourceRoot m) name)
      /\ (sourceRootURL m = None -> SourceRoot m = ""%string ->
          absSource m name = name)).
Proof.
  unfold absSource. split.
  - intros [-> | Hu]; [reflexivity|]. rewrite Hu.
    destruct (path_IsAbs name); reflexivity.
  - intros -> ->. repeat split.
    + intros root ->. reflexivity.
    + intros -> Hr. apply nonempty_true in Hr. rewrite Hr. reflexivity.
    + intros -> Hr. apply nonempty_false in Hr. rewrite Hr. reflexivity.
Qed.

(** ** Consumer.source *)

Lemma index_lookup {A : Type} (l : list A) (i : nat) (a : A) :
  l !! i = Some a -> index l (Z.of_nat i) = Ret a.
Proof. intros H. unfold index. rewrite Nat2Z.id, H. reflexivity. Qed.

(** [source] resolves the record at the [selected] index, and finds
    nothing when there is none. *)
Lemma source_selected (m : sourceMap) qLine qColumn :
  source (Some m) qLine qColumn =
    match selected (mappings m) qLine qColumn with
    | None => Ret not_found
    | Some k =>
      match mappings m !! k with
      | Some r => resolve m r
      | None => Panic IndexOutOfRange
      end
    end.
Proof.
  unfold source, selected.
  destruct (sort_Search_bounds (length (mappings m))
              (not_before (mappings m) qLine qColumn)) as (Hb & _ & _).
  set (i := sort_Search _ _) in *.
  destruct (Nat.eqb_spec i (length (mappings m))) as [Heq|Hne].
  - rewrite (proj2 (lookup_ge_None (mappings m) i)) by lia. reflexivity.
  - destruct (lookup_lt_is_Some_2 (mappings m) i ltac:(lia)) as [r Hr].
    rewrite (index_lookup _ _ _ Hr), Hr. simpl.
    destruct ((genLine r >? qLine) || (genColumn r >? qColumn)).
    + destruct (Nat.eqb_spec i 0) as [H0|H0]; [reflexivity|].
      destruct (lookup_lt_is_Some_2 (mappings m) (i - 1) ltac:(lia)) as [r' Hr'].
      rewrite (index_lookup _ _ _ Hr'), Hr'. reflexivity.
    + rewrite Hr. reflexivity.
Qed.

(** C2.  On sorted records [source] looks for the first record that is not
    before the query position.  When every record is before it, nothing is
    found.  Otherwise, with [r] that first record at index [i]: on an
    exact match [r] is resolved; when [r] is greater than the query on
    either field, the record just before it is resolved, and nothing is
    found when [r] is the first record; and these two cases are all. *)
Theorem source_binary_search (m : sourceMap) (qLine qColumn : Z) :
  sorted (mappings m) ->
  ((forall r, In r (mappings m) -> pos_lt (pos r) (qLine, qColumn)) ->
   source (Some m) qLine qColumn = Ret not_found)
  /\ (forall i r,
        mappings m !! i = Some r ->
        pos_le (qLine, qColumn) (pos r) ->
        (forall j r', (j < i)%nat -> mappings m !! j = Some r' ->
           pos_lt (pos r') (qLine, qColumn)) ->
        (genLine r = qLine /\ genColumn r = qColumn ->
         source (Some m) qLine qColumn = resolve m r)
        /\ (genLine r > qLine \/ genColumn r > qColumn -> i = 0%nat ->
            source (Some m) qLine qColumn = Ret not_found)
        /\ (genLine r > qLine \/ genColumn r > qColumn ->
            forall r', (0 < i)%nat -> mappings m !! (i - 1)%nat = Some r' ->
            source (Some m) qLine qColumn = resolve m r')
        /\ ((genLine r = qLine /\ genColumn r = qColumn)
            \/ (genLine r > qLine \/ genColumn r > qColumn))).
Proof.
  intros Hs. split.
  - intros Hall. rewrite source_selected. unfold selected.
    rewrite (search_none _ _ _ Hs Hall).
    rewrite (proj2 (lookup_ge_None (mappings m) _)) by lia. reflexivity.
  - intros i r Hi Hle Hbefore.
    pose proof (search_first_unique _ _ _ _ _ Hs Hi Hle Hbefore) as Hsearch.
    assert (Hsel : selected (mappings m) qLine qColumn =
              if (genLine r >? qLine) || (genColumn r >? qColumn)
              then (if (i =? 0)%nat then None else Some (i - 1)%nat)
              else Some i).
    { unfold selected. rewrite Hsearch, Hi. reflexivity. }
    rewrite source_selected, Hsel.
    split; [|split; [|split]].
    + intros [Hl Hc].
      replace ((genLine r >? qLine) || (genColumn r >? qColumn)) with false
        by (symmetry; apply orb_false_iff; lia).
      rewrite Hi. reflexivity.
    + intros Hgt ->.
      replace ((genLine r >? qLine) || (genColumn r >? qColumn)) with true
        by (symmetry; apply orb_true_iff; lia).
      reflexivity.
    + intros Hgt r' Hpos Hr'.
      replace ((genLine r >? qLine) || (genColumn r >? qColumn)) with true
        by (symmetry; apply orb_true_iff; lia).
      destruct (Nat.eqb_spec i 0); [lia|]. rewrite Hr'. reflexivity.
    + unfold pos_le, pos in Hle. simpl in Hle. lia.
Qed.

Lemma source_at_first_record (m : sourceMap) (k : nat) (r : mapping)
    (src name : string) :
  sorted (mappings m) ->
  mappings m !! k = Some r ->
  (forall j r', (j < k)%nat -> mappings m !! j = Some r' -> pos r' <> pos r) ->
  (if sourcesInd r >=? 0
   then exists s, Sources m !! Z.to_nat (sourcesInd r) = Some s
                  /\ src = absSource m s
   else src = ""%string) ->
  (if namesInd r >=? 0
   then exists v, Names m !! Z.to_nat (namesInd r) = Some v
                  /\ name = render_name v
   else name = ""%string) ->
  source (Some m) (genLine r) (genColumn r) =
    Ret {| res_source := src; res_name := name;
           res_line := sourceLine r; res_column := sourceColumn r;
           res_ok := true |}.
Proof.
  intros Hs Hk Hfirst Hsrc Hname.
  assert (Hsearch : sort_Search (length (mappings m))
            (not_before (mappings m) (genLine r) (genColumn r)) = k).
  { apply (search_first_unique _ _ _ k r Hs Hk); [apply pos_le_refl|].
    intros j r' Hj Hr'.
    pose proof (sorted_lookup _ Hs j k r' r ltac:(lia) Hr' Hk) as Hle.
    destruct (pos_le_or_lt (pos r) (pos r')) as [Hge | Hlt]; [|exact Hlt].
    exfalso. apply (Hfirst j r' Hj Hr'). apply pos_le_antisym; assumption. }
  rewrite source_selected. unfold selected. rewrite Hsearch, Hk.
  replace ((genLine r >? genLine r) || (genColumn r >? genColumn r)) with false
    by (symmetry; apply orb_false_iff; lia).
  rewrite Hk. unfold resolve, index.
  destruct (sourcesInd r >=? 0).
  - destruct Hsrc as (s & -> & ->). simpl.
    destruct (namesInd r >=? 0).
    + destruct Hname as (v & -> & ->). reflexivity.
    + subst name. reflexivity.
  - subst src. simpl. destruct (namesInd r >=? 0).
    + destruct Hname as (v & -> & ->). reflexivity.
    + subst name. reflexivity.
Qed.

(** C3 (amended).  On sorted records, for a record [r] that is the first
    one at its generated position and whose source and name indices lie
    within [Sources] and [Names]: the lookup at the position of [r] finds
    it, with the source of [r] made absolute (empty when it has none),
    its name rendered (empty when it has none), and its source line and
    column. *)
Theorem lookup_first_record (m : sourceMap) (k : nat) (r : mapping) :
  sorted (mappings m) ->
  mappings m !! k = Some r ->
  (forall j r', (j < k)%nat -> mappings m !! j = Some r' -> pos r' <> pos r) ->
  indices_in_range m r ->
  lookup_returns m r.
Proof.
  intros Hs Hk Hfirst [Hsrc Hname].
  assert (Hs_ok : if sourcesInd r >=? 0
                  then exists s, Sources m !! Z.to_nat (sourcesInd r) = Some s
                  else True).
  { destruct (Z.geb_spec (sourcesInd r) 0); [|exact I].
    apply lookup_lt_is_Some_2. lia. }
  assert (Hn_ok : if namesInd r >=? 0
                  then exists v, Names m !! Z.to_nat (namesInd r) = Some v
                  else True).
  { destruct (Z.geb_spec (namesInd r) 0); [|exact I].
    apply lookup_lt_is_Some_2. lia. }
  unfold lookup_returns.
  destruct (sourcesInd r >=? 0) eqn:Hsi; destruct (namesInd r >=? 0) eqn:Hni.
  - destruct Hs_ok as [s Hs0]. destruct Hn_ok as [v Hv].
    eexists. split.
    + apply (source_at_first_record m k r (absSource m s) (render_name v) Hs Hk Hfirst).
      * rewrite Hsi. eauto.
      * rewrite Hni. eauto.
    + simpl. eauto 10.
  - destruct Hs_ok as [s Hs0].
    eexists. split.
    + apply (source_at_first_record m k r (absSource m s) ""%string Hs Hk Hfirst).
      * rewrite Hsi. eauto.
      * rewrite Hni. reflexivity.
    + simpl. eauto 10.
  - destruct Hn_ok as [v Hv].
    eexists. split.
    + apply (source_at_first_record m k r ""%string (render_name v) Hs Hk Hfirst).
      * rewrite Hsi. reflexivity.
      * rewrite Hni. eauto.
    + simpl. eauto 10.
  - eexists. split.
    + apply (source_at_first_record m k r ""%string ""%string Hs Hk Hfirst).
      * rewrite Hsi. reflexivity.
      * rewrite Hni. reflexivity.
    + simpl. eauto 10.
Qed.

(** C4.  On sorted records the record [source] resolves is the one at the
    [selected] index; that record is never after the query position; and
    selection is monotone: of two queries in order, both selecting a
    record, the later one never selects an earlier record. *)
Theorem lookup_monotone (m : sourceMap) :
  sorted (mappings m) ->
  (forall qLine qColumn,
     source (Some m) qLine qColumn =
       match selected (mappings m) qLine qColumn with
       | None => Ret not_found
       | Some k =>
         match mappings m !! k with
         | Some r => resolve m r
         | None => Panic IndexOutOfRange
         end
       end)
  /\ (forall qLine qColumn k,
        selected (mappings m) qLine qColumn = Some k ->
        exists r, mappings m !! k = Some r
                  /\ ~ pos_lt (qLine, qColumn) (pos r))
  /\ (forall p1 p2 k1 k2,
        pos_le p1 p2 ->
        selected (mappings m) (fst p1) (snd p1) = Some k1 ->
        selected (mappings m) (fst p2) (snd p2) = Some k2 ->
        (k1 <= k2)%nat).
Proof.
  intros Hs. split; [intros; apply source_selected|].
  assert (Hsel : forall qLine qColumn k,
    selected (mappings m) qLine qColumn = Some k ->
    exists i r r0, sort_Search (length (mappings m))
                     (not_before (mappings m) qLine qColumn) = i
      /\ mappings m !! i = Some r0 /\ mappings m !! k = Some r
      /\ ((k = i /\ pos r = (qLine, qColumn))
          \/ (S k = i /\ pos_lt (pos r) (qLine, qColumn)
              /\ pos r0 <> (qLine, qColumn)))).
  { intros qLine qColumn k. unfold selected.
    destruct (search_first (mappings m) qLine qColumn Hs) as (Hb & Hlo & Hhi).
    set (i := sort_Search _ _) in *.
    destruct (mappings m !! i) as [r0|] eqn:Hr0; [|discriminate].
    pose proof (Hhi i r0 ltac:(lia) Hr0) as Hle.
    destruct ((genLine r0 >? qLine) || (genColumn r0 >? qColumn)) eqn:Hfz.
    - destruct (Nat.eqb_spec i 0) as [H0|H0]; [discriminate|]. intros [= <-].
      destruct (lookup_lt_is_Some_2 (mappings m) (i - 1)) as [r Hr].
      { apply lookup_lt_Some in Hr0. lia. }
      exists i, r, r0. repeat split; auto. right.
      split; [lia|]. split; [exact (Hlo (i - 1)%nat r ltac:(lia) Hr)|].
      apply orb_true_iff in Hfz. unfold pos. intros [= Hl Hc]. lia.
    - intros [= <-]. exists i, r0, r0. repeat split; auto. left.
      split; [reflexivity|]. apply orb_false_iff in Hfz.
      unfold pos_le, pos in *. simpl in Hle. f_equal; lia. }
  split.
  - intros qLine qColumn k Hk.
    destruct (Hsel _ _ _ Hk) as (i & r & r0 & _ & _ & Hr & Hcase).
    exists r. split; [exact Hr|]. intros Hlt.
    destruct Hcase as [[_ Heq] | (_ & Hbefore & _)].
    + rewrite Heq in Hlt. unfold pos_lt in Hlt. lia.
    + unfold pos_lt in *. lia.
  - intros [l1 c1] [l2 c2] k1 k2 Hle H1 H2. simpl in H1, H2.
    destruct (Hsel _ _ _ H1) as (i1 & r1 & r01 & Hi1 & Hr01 & Hr1 & Hc1).
    destruct (Hsel _ _ _ H2) as (i2 & r2 & r02 & Hi2 & Hr02 & Hr2 & Hc2).
    destruct (search_first (mappings m) l1 c1 Hs) as (_ & Hlo1 & Hhi1).
    destruct (search_first (mappings m) l2 c2 Hs) as (_ & Hlo2 & Hhi2).
    rewrite Hi1 in Hlo1, Hhi1. rewrite Hi2 in Hlo2, Hhi2. clear Hi1 Hi2.
    (* the first record not before the later query is not before the
       earlier one either *)
    assert (Hi12 : (i1 <= i2)%nat).
    { destruct (Nat.le_gt_cases i1 i2) as [H|H]; [exact H|]. exfalso.
      apply (pos_lt_not_le _ _ (Hlo1 i2 r02 H Hr02)).
      eapply pos_le_trans; [exact Hle|]. exact (Hhi2 i2 r02 ltac:(lia) Hr02). }
    destruct Hc1 as [[-> Heq1] | (<- & _ & _)];
      destruct Hc2 as [[-> Heq2] | (<- & Hlt2 & Hne2)]; try lia.
    (* exact match for the earlier query, fuzzy for the later one *)
    destruct (Nat.eq_dec i1 (S k2)) as [Heq|Hne]; [|lia]. exfalso.
    subst i1. rewrite Hr01 in Hr02. injection Hr02 as <-.
    rewrite Hr1 in Hr01. injection Hr01 as <-.
    apply Hne2. apply pos_le_antisym.
    + rewrite Heq1. exact Hle.
    + exact (Hhi2 (S k2) r1 ltac:(lia) Hr1).
Qed.



(** ** reverse *)

Lemma swap_length {A : Type} i j (l : list A) : length (swap i j l) = length l.
Proof.
  unfold swap. destruct (l !! i), (l !! j); try reflexivity.
  rewrite !length_insert. reflexivity.
Qed.

Lemma swap_lookup {A : Type} i j (l : list A) p :
  (i < length l)%nat -> (j < length l)%nat -> i <> j ->
  swap i j l !! p =
    if decide (p = j) then l !! i else if decide (p = i) then l !! j else l !! p.
Proof.
  intros Hi Hj Hij. unfold swap.
  destruct (lookup_lt_is_Some_2 l i Hi) as [a Ha].
  destruct (lookup_lt_is_Some_2 l j Hj) as [b Hb]. rewrite Ha, Hb.
  destruct (decide (p = j)) as [-> | Hpj].
  - rewrite list_lookup_insert_eq by (rewrite length_insert; exact Hj).
    reflexivity.
  - rewrite list_lookup_insert_ne by congruence.
    destruct (decide (p = i)) as [-> | Hpi].
    + rewrite list_lookup_insert_eq by exact Hi. reflexivity.
    + rewrite list_lookup_insert_ne by congruence. reflexivity.
Qed.

Lemma reverse_loop_mirrored {A : Type} (ss : list A) : forall turns i l,
  (i + turns <= length ss / 2)%nat ->
  mirrored ss l i ->
  mirrored ss (reverse_loop turns i (length ss - 1) l) (i + turns).
Proof.
  induction turns as [|turns IH]; intros i l Hturns Hl; cbn [reverse_loop].
  - rewrite Nat.add_0_r. exact Hl.
  - replace (i + S turns)%nat with (S i + turns)%nat by lia.
    apply IH; [lia|]. destruct Hl as [Hlen Hl].
    pose proof (Nat.div_mod_eq (length ss) 2) as Hd.
    pose proof (Nat.mod_upper_bound (length ss) 2 ltac:(lia)) as Hm.
    split; [rewrite swap_length; exact Hlen|].
    intros p Hp. rewrite swap_lookup by lia.
    rewrite (Hl i) by lia. rewrite (Hl (length ss - 1 - i)%nat) by lia.
    replace ((i <? i)%nat || (length ss - i <=? i)%nat) with false
      by (symmetry; apply orb_false_iff; split;
          [apply Nat.ltb_ge | apply Nat.leb_gt]; lia).
    replace ((length ss - 1 - i <? i)%nat
             || (length ss - i <=? length ss - 1 - i)%nat) with false
      by (symmetry; apply orb_false_iff; split;
          [apply Nat.ltb_ge | apply Nat.leb_gt]; lia).
    destruct (decide (p = (length ss - 1 - i)%nat)) as [-> | Hp1].
    + replace ((length ss - 1 - i <? S i)%nat
               || (length ss - S i <=? length ss - 1 - i)%nat) with true
        by (symmetry; apply orb_true_iff; right; apply Nat.leb_le; lia).
      f_equal. lia.
    + destruct (decide (p = i)) as [-> | Hp2].
      * replace ((i <? S i)%nat || (length ss - S i <=? i)%nat) with true
          by (symmetry; apply orb_true_iff; left; apply Nat.ltb_lt; lia).
        reflexivity.
      * rewrite (Hl p Hp).
        replace ((p <? S i)%nat || (length ss - S i <=? p)%nat)
          with ((p <? i)%nat || (length ss - i <=? p)%nat); [reflexivity|].
        destruct (Nat.ltb_spec p i), (Nat.ltb_spec p (S i)),
          (Nat.leb_spec (length ss - i) p), (Nat.leb_spec (length ss - S i) p);
          simpl; try reflexivity; lia.
Qed.

(** The in-place loop reverses the slice. *)
Lemma reverse_rev {A : Type} (ss : list A) : reverse ss = rev ss.
Proof.
  unfold reverse.
  destruct (reverse_loop_mirrored ss (length ss / 2) 0 ss) as [Hlen Hl].
  { lia. }
  { split; [reflexivity|]. intros p Hp.
    replace ((p <? 0)%nat || (length ss - 0 <=? p)%nat) with false;
      [reflexivity|].
    symmetry. apply orb_false_iff. split; [reflexivity|].
    apply Nat.leb_gt. lia. }
  cbn [Nat.add] in Hlen, Hl. apply (list_eq_same_length _ _ (length ss));
    [rewrite length_rev; reflexivity | exact Hlen |].
  intros p x y Hp Hx Hy. rewrite (Hl p Hp) in Hx.
  rewrite rev_alt in Hy.
  change (rev_append ss []) with (list.reverse ss) in Hy.
  rewrite reverse_lookup in Hy by exact Hp.
  pose proof (Nat.div_mod_eq (length ss) 2) as Hd.
  pose proof (Nat.mod_upper_bound (length ss) 2 ltac:(lia)) as Hm.
  replace (length ss - S p)%nat with (length ss - 1 - p)%nat in Hy by lia.
  destruct ((p <? length ss / 2)%nat || (length ss - length ss / 2 <=? p)%nat)
    eqn:Hc.
  - congruence.
  - apply orb_false_iff in Hc as [Hc1 Hc2].
    apply Nat.ltb_ge in Hc1. apply Nat.leb_gt in Hc2.
    replace (length ss - 1 - p)%nat with p in Hy by lia. congruence.
Qed.

(** ** Parse *)

(** The sections [Parse] works on: those of the document, or the single
    implicit one at offset (0, 0) around the top-level map. *)
Lemma Parse_Ok mapURL b c :
  Parse mapURL b = Ret (Ok c) ->
  exists d, json_Unmarshal b = Ok d
    /\ file c = File (v3_sourceMap d)
    /\ Forall2 (parsed_as mapURL)
         (rev (document_sections d)) (sections c).
Proof.
  unfold Parse. destruct (json_Unmarshal b) as [d|e]; [|discriminate].
  destruct (checkVersion (Version (v3_sourceMap d))); [discriminate|].
  fold (document_sections d).
  destruct (parse_sections (document_sections d) mapURL) as [[ss'|e]|p] eqn:Hp;
    simpl; try discriminate.
  intros [= <-]. exists d. split; [reflexivity|]. split; [reflexivity|].
  simpl. rewrite reverse_rev. apply parse_sections_Ok in Hp.
  revert Hp. generalize (document_sections d). intros ss Hp.
  induction Hp as [|s s' ss ss' Hs _ IH]; simpl; [constructor|].
  apply Forall2_app; [exact IH|]. constructor; [exact Hs | constructor].
Qed.

(** ** Consumer.Source *)

Lemma selects_matches (s : section) qLine qColumn :
  selects s qLine qColumn = true <-> matches s qLine qColumn.
Proof. unfold selects, matches. lia. Qed.

Lemma Source_loop_first ss qLine qColumn : forall i s,
  ss !! i = Some s ->
  matches s qLine qColumn ->
  (forall j s', (j < i)%nat -> ss !! j = Some s' -> ~ matches s' qLine qColumn) ->
  Source_loop ss qLine qColumn =
    source (Map s) (int_sub qLine (Offset_Line s))
           (int_sub qColumn (Offset_Column s)).
Proof.
  induction ss as [|s0 ss IH]; intros i s Hi Hm Hbefore; [destruct i; discriminate|].
  destruct i as [|i]; simpl in *.
  - injection Hi as ->. rewrite (proj2 (selects_matches _ _ _) Hm). reflexivity.
  - destruct (selects s0 qLine qColumn) eqn:Hs0.
    + exfalso. apply (Hbefore 0%nat s0); [lia | reflexivity |].
      apply selects_matches, Hs0.
    + apply (IH i s Hi Hm). intros j s' Hj Hs'.
      apply (Hbefore (S j) s'); [lia | exact Hs'].
Qed.

Lemma Source_loop_none ss qLine qColumn :
  (forall s, In s ss -> ~ matches s qLine qColumn) ->
  Source_loop ss qLine qColumn = Ret not_found.
Proof.
  induction ss as [|s0 ss IH]; intros Hnone; simpl; [reflexivity|].
  destruct (selects s0 qLine qColumn) eqn:Hs0.
  - exfalso. apply (Hnone s0); [left; reflexivity | apply selects_matches, Hs0].
  - apply IH. intros s Hin. apply Hnone. right. exact Hin.
Qed.

(** C1.  A consumer that [Parse] builds stores the sections of its
    document in reverse order.  [Source] scans the stored sections in
    order and hands the query to the first section whose offset matches
    it (offset line below the query line, or offset line plus one equal
    to the query line with the offset column at most the query column),
    after subtracting the offset line and column from the query; when no
    section matches, nothing is found.  The additions and subtractions
    are those of [int]; they are the exact ones when the exact result is
    an [int]. *)
Theorem Source_first_matching_section (c : Consumer) (qLine qColumn : Z) :
  (forall mapURL b,
     Parse mapURL b = Ret (Ok c) ->
     exists d, json_Unmarshal b = Ok d
       /\ Forall2 (parsed_as mapURL) (rev (document_sections d)) (sections c))
  /\ (forall i s,
        sections c !! i = Some s ->
        matches s qLine qColumn ->
        (forall j s', (j < i)%nat -> sections c !! j = Some s' ->
           ~ matches s' qLine qColumn) ->
        Source c qLine qColumn =
          source (Map s) (int_sub qLine (Offset_Line s))
                 (int_sub qColumn (Offset_Column s)))
  /\ ((forall s, In s (sections c) -> ~ matches s qLine qColumn) ->
      Source c qLine qColumn = Ret not_found)
  /\ (forall a b, is_int (a + b) -> int_add a b = a + b)
  /\ (forall a b, is_int (a - b) -> int_sub a b = a - b).
Proof.
  split.
  { intros mapURL b Hp. destruct (Parse_Ok _ _ _ Hp) as (d & Hd & _ & Hss).
    exists d. auto. }
  split; [apply Source_loop_first|].
  split; [apply Source_loop_none|].
  split; [exact int_add_exact | exact int_sub_exact].
Qed.

(** C7.  What the code does on an indexed document with a section that
    has no map: once the top-level version is accepted and the sections
    before that one are parsed, [Parse] dereferences the nil map and
    panics; it returns neither an error nor a consumer. *)
Theorem Parse_section_without_map_panics mapURL b d pre s post :
  json_Unmarshal b = Ok d ->
  supported (Version (v3_sourceMap d)) ->
  Sections d = pre ++ s :: post ->
  Forall (parses mapURL) pre ->
  Map s = None ->
  Parse mapURL b = Panic NilDereference.
Proof.
  intros Hb Htop Hss Hpre Hs. unfold Parse.
  rewrite Hb, (checkVersion_supported _ Htop), Hss.
  replace (length (pre ++ s :: post) =? 0)%nat with false
    by (symmetry; apply Nat.eqb_neq; rewrite length_app; simpl; lia).
  rewrite (parse_sections_first_nil pre s post mapURL Hpre Hs). reflexivity.
Qed.

(** C10.  A consumer built from a flat document holds the one implicit
    section at offset (0, 0), and [Source] finds nothing on generated
    line 0, whatever the column and whatever the records. *)
Theorem flat_line_zero_not_found mapURL b d c :
  json_Unmarshal b = Ok d ->
  Sections d = [] ->
  Parse mapURL b = Ret (Ok c) ->
  (exists m', sections c =
                [ {| Offset_Line := 0; Offset_Column := 0; Map := Some m' |} ])
  /\ forall qColumn, Source c 0 qColumn = Ret not_found.
Proof.
  intros Hb Hnil Hparse. unfold Parse in Hparse.
  rewrite Hb, Hnil in Hparse.
  destruct (checkVersion (Version (v3_sourceMap d))); [discriminate|].
  simpl in Hparse.
  destruct (parse (v3_sourceMap d) mapURL) as [m'|e]; [|discriminate].
  simpl in Hparse. injection Hparse as <-.
  split; [exists m'; reflexivity|].
  intros qColumn. reflexivity.
Qed.

(** * Further properties of the code *)

(** ** reverse *)

(** X1.  [reverse] turns the slice around: the result is the reversed
    list, of the same length, its element at [i] is the element at
    [len - 1 - i] of the input, and reversing twice gives the input back. *)
Theorem reverse_is_rev {A : Type} (ss : list A) :
  reverse ss = rev ss
  /\ length (reverse ss) = length ss
  /\ reverse (reverse ss) = ss
  /\ forall i, (i < length ss)%nat ->
       reverse ss !! i = ss !! (length ss - 1 - i)%nat.
Proof.
  split; [apply reverse_rev|]. rewrite !reverse_rev.
  split; [apply length_rev|]. split; [apply rev_involutive|].
  intros i Hi. rewrite rev_alt.
  change (rev_append ss []) with (list.reverse ss).
  rewrite reverse_lookup by exact Hi. f_equal. lia.
Qed.

(** ** Consumer.Source: which section owns a line *)

Lemma selects_below_max (s : section) qLine qColumn :
  is_int (Offset_Line s) -> Offset_Line s < int_max ->
  selects s qLine qColumn = (Offset_Line s <? qLine).
Proof.
  intros Hint Hmax. unfold selects. rewrite int_add_exact.
  - destruct (Z.ltb_spec (Offset_Line s) qLine); [reflexivity|]. simpl.
    destruct (Z.eqb_spec (Offset_Line s + 1) qLine); [lia | reflexivity].
  - unfold is_int, int_min, int_max in *. lia.
Qed.

(** X2.  For an offset line below the largest [int], a section is chosen
    exactly when its offset line is below the query line: the clause on
    the offset column never changes the choice, since an offset line plus
    one equal to the query line is already below it. *)
Theorem selects_ignores_column (s : section) (qLine qColumn : Z) :
  is_int (Offset_Line s) -> Offset_Line s < int_max ->
  selects s qLine qColumn = (Offset_Line s <? qLine)
  /\ forall qColumn', selects s qLine qColumn' = selects s qLine qColumn.
Proof.
  intros Hint Hmax. split; [apply selects_below_max; assumption|].
  intros qColumn'. rewrite !selects_below_max by assumption. reflexivity.
Qed.

Lemma Source_loop_local_line ss qLine qColumn :
  (forall s, In s ss -> 0 <= Offset_Line s < int_max) ->
  is_int qLine ->
  Source_loop ss qLine qColumn = Ret not_found
  \/ exists s, In s ss
       /\ 1 <= qLine - Offset_Line s <= qLine
       /\ Source_loop ss qLine qColumn =
            source (Map s) (qLine - Offset_Line s)
                   (int_sub qColumn (Offset_Column s)).
Proof.
  intros Hoff Hq. induction ss as [|s ss IH]; [left; reflexivity|].
  assert (Hs : 0 <= Offset_Line s < int_max) by (apply Hoff; left; reflexivity).
  simpl. rewrite selects_below_max
    by (unfold is_int, int_min, int_max in *; lia).
  destruct (Z.ltb_spec (Offset_Line s) qLine) as [Hlt|Hge].
  - right. exists s. split; [left; reflexivity|]. split; [lia|].
    rewrite int_sub_exact; [reflexivity|].
    unfold is_int, int_min, int_max in *. lia.
  - destruct IH as [Hnone | (s' & Hin & Hline & Hsrc)].
    + intros s' Hin. apply Hoff. right. exact Hin.
    + left. exact Hnone.
    + right. exists s'. split; [right; exact Hin|]. auto.
Qed.

(** X3.  When the offset lines of the stored sections are non-negative
    (and below the largest [int]), [Source] either finds nothing or hands
    the lookup a local line that is at least 1 and at most the query
    line; so a query on a line that is 0 or negative finds nothing, in
    an indexed document as in a flat one. *)
Theorem Source_local_line_positive (c : Consumer) (qLine qColumn : Z) :
  (forall s, In s (sections c) -> 0 <= Offset_Line s < int_max) ->
  is_int qLine ->
  (Source c qLine qColumn = Ret not_found
   \/ exists s, In s (sections c)
        /\ 1 <= qLine - Offset_Line s <= qLine
        /\ Source c qLine qColumn =
             source (Map s) (qLine - Offset_Line s)
                    (int_sub qColumn (Offset_Column s)))
  /\ (qLine <= 0 -> Source c qLine qColumn = Ret not_found).
Proof.
  intros Hoff Hq.
  pose proof (Source_loop_local_line (sections c) qLine qColumn Hoff Hq) as H.
  split; [exact H|]. intros Hle.
  destruct H as [Hnone | (s & _ & Hline & _)]; [exact Hnone | lia].
Qed.

(** X4.  For a consumer built from a flat document, [Source] on a line
    from 1 on is the lookup in the parsed top-level map at the very same
    line and column. *)
Theorem flat_Source_is_lookup mapURL b d c :
  json_Unmarshal b = Ok d ->
  Sections d = [] ->
  Parse mapURL b = Ret (Ok c) ->
  exists m', parse (v3_sourceMap d) mapURL = Ok m'
    /\ forall qLine qColumn,
         is_int qLine -> is_int qColumn -> 1 <= qLine ->
         Source c qLine qColumn = source (Some m') qLine qColumn.
Proof.
  intros Hb Hnil Hparse. unfold Parse in Hparse.
  rewrite Hb, Hnil in Hparse.
  destruct (checkVersion (Version (v3_sourceMap d))); [discriminate|].
  simpl in Hparse.
  destruct (parse (v3_sourceMap d) mapURL) as [m'|e]; [|discriminate].
  simpl in Hparse. injection Hparse as <-.
  exists m'. split; [reflexivity|].
  intros qLine qColumn Hl Hc Hpos. unfold Source.
  cbn -[int_sub int_add source selects].
  rewrite selects_below_max
    by (unfold is_int, int_min, int_max; simpl; lia).
  cbn [Offset_Line].
  replace (0 <? qLine) with true by (symmetry; apply Z.ltb_lt; lia).
  rewrite !int_sub_exact by (rewrite Z.sub_0_r; assumption).
  rewrite !Z.sub_0_r. reflexivity.
Qed.

(** ** sourceMap.parse: fields, origin and errors *)

Lemma parse_Ok_fields (m m' : sourceMap) mapURL :
  parse m mapURL = Ok m' ->
  Version m' = Version m /\ File m' = File m /\ SourceRoot m' = SourceRoot m
  /\ Sources m' = Sources m /\ Names m' = Names m
  /\ Mappings m' = ""%string
  /\ parseMappings (Mappings m) = Ok (mappings m').
Proof.
  unfold parse. destruct (checkVersion (Version m)); [discriminate|].
  assert (Hroot : forall m1 : sourceMap,
    Version m1 = Version m /\ File m1 = File m /\ SourceRoot m1 = SourceRoot m
    /\ Sources m1 = Sources m /\ Names m1 = Names m /\ Mappings m1 = Mappings m ->
    match parseMappings (Mappings m1) with
    | Ok ms => Ok (set_mappings m1 ms)
    | Err e => Err (MalformedMappings e)
    end = Ok m' ->
    Version m' = Version m /\ File m' = File m /\ SourceRoot m' = SourceRoot m
    /\ Sources m' = Sources m /\ Names m' = Names m
    /\ Mappings m' = ""%string
    /\ parseMappings (Mappings m) = Ok (mappings m')).
  { intros m1 (Hv & Hf & Hr & Hs & Hn & Hm). rewrite Hm.
    destruct (parseMappings (Mappings m)) as [ms|e]; [|discriminate].
    intros [= <-]. simpl. auto 10. }
  destruct (nonempty (SourceRoot m)).
  - destruct (url_Parse (SourceRoot m)) as [u|e]; [|discriminate].
    destruct (URL_IsAbs u); apply Hroot; simpl; auto 10.
  - destruct (nonempty mapURL); [|apply Hroot; auto 10].
    destruct (url_Parse mapURL) as [u|e]; [|discriminate].
    destruct (URL_IsAbs u); apply Hroot; simpl; auto 10.
Qed.

(** X5.  A successful [sourceMap.parse] leaves the version, file, source
    root, sources and names of the map as they were, empties the raw
    mappings string, and stores the records the decoder made of it. *)
Theorem parse_keeps_fields (m m' : sourceMap) (mapURL : string) :
  parse m mapURL = Ok m' ->
  Version m' = Version m /\ File m' = File m /\ SourceRoot m' = SourceRoot m
  /\ Sources m' = Sources m /\ Names m' = Names m
  /\ Mappings m' = ""%string
  /\ parseMappings (Mappings m) = Ok (mappings m').
Proof. apply parse_Ok_fields. Qed.

(** X6.  With a non-empty source root [sourceMap.parse] never looks at
    the origin: its result, error or map, is the same for any two
    origins, also for one that is no URL at all. *)
Theorem parse_ignores_origin (m : sourceMap) :
  SourceRoot m <> ""%string ->
  forall mapURL1 mapURL2, parse m mapURL1 = parse m mapURL2.
Proof.
  intros Hr mapURL1 mapURL2. apply nonempty_true in Hr.
  unfold parse. rewrite Hr. reflexivity.
Qed.

(** X7.  The errors of [sourceMap.parse] after the version check, in
    order: a source root, or with an empty source root an origin, that
    [url.Parse] refuses fails the parse with that error, whatever the
    mappings; and when no URL is refused, mappings the decoder refuses
    fail it with the decoder's error. *)
Theorem parse_error_order (m : sourceMap) (mapURL e : string) :
  supported (Version m) ->
  ((SourceRoot m <> ""%string /\ url_Parse (SourceRoot m) = Err e)
   \/ (SourceRoot m = ""%string /\ mapURL <> ""%string
       /\ url_Parse mapURL = Err e) ->
   parse m mapURL = Err (InvalidURL e))
  /\ ((SourceRoot m <> ""%string -> exists u, url_Parse (SourceRoot m) = Ok u) ->
      (SourceRoot m = ""%string -> mapURL <> ""%string ->
       exists u, url_Parse mapURL = Ok u) ->
      parseMappings (Mappings m) = Err e ->
      parse m mapURL = Err (MalformedMappings e)).
Proof.
  intros Hv. unfold parse. rewrite (checkVersion_supported _ Hv). split.
  - intros [[Hr He] | (Hr & Hu & He)].
    + apply nonempty_true in Hr. rewrite Hr, He. reflexivity.
    + apply nonempty_false in Hr. apply nonempty_true in Hu.
      rewrite Hr, Hu, He. reflexivity.
  - intros H1 H2 He.
    destruct (nonempty (SourceRoot m)) eqn:Hr.
    + apply nonempty_true in Hr. destruct (H1 Hr) as [u Hu]. rewrite Hu.
      destruct (URL_IsAbs u); simpl; rewrite He; reflexivity.
    + apply nonempty_false in Hr. destruct (nonempty mapURL) eqn:Hm.
      * apply nonempty_true in Hm. destruct (H2 Hr Hm) as [u Hu]. rewrite Hu.
        destruct (URL_IsAbs u); simpl; rewrite He; reflexivity.
      * rewrite He. reflexivity.
Qed.

(** ** Parse: errors, success, and the consumer it builds *)

Lemma parse_sections_all ss mapURL :
  Forall (parses mapURL) ss ->
  exists ss', parse_sections ss mapURL = Ret (Ok ss').
Proof.
  induction 1 as [|s ss (m & m' & Hs & Hm) _ [ss' IH]]; simpl.
  - eauto.
  - rewrite Hs, Hm, IH. simpl. eauto.
Qed.

Lemma parsed_as_parses mapURL ss ss' :
  Forall2 (parsed_as mapURL) ss ss' -> Forall (parses mapURL) ss.
Proof.
  induction 1 as [|s s' ss ss' (m & m' & Hs & Hm & _) _ IH]; constructor.
  - exists m, m'. auto.
  - exact IH.
Qed.

(** X8.  [Parse] returns the first error it meets and no consumer: the
    error of [json.Unmarshal]; otherwise, the top-level version being
    supported, the error of [sourceMap.parse] on the first map that
    fails, the maps of the sections before it having parsed (for a flat
    document that map is the top-level one). *)
Theorem Parse_returns_first_error :
  (forall mapURL b e,
     json_Unmarshal b = Err e ->
     Parse mapURL b = Ret (Err (MalformedDocument e)))
  /\ (forall mapURL b d pre s m post err,
        json_Unmarshal b = Ok d ->
        supported (Version (v3_sourceMap d)) ->
        document_sections d = pre ++ s :: post ->
        Forall (parses mapURL) pre ->
        Map s = Some m -> parse m mapURL = Err err ->
        Parse mapURL b = Ret (Err err)).
Proof.
  split.
  - intros mapURL b e Hb. unfold Parse. rewrite Hb. reflexivity.
  - intros mapURL b d pre s m post err Hb Hv Hss Hpre Hs Hm. unfold Parse.
    rewrite Hb, (checkVersion_supported _ Hv). fold (document_sections d).
    rewrite Hss, (parse_sections_first_error pre s m post mapURL err Hpre Hs Hm).
    reflexivity.
Qed.

(** X9.  [Parse] returns a consumer exactly when the document decodes,
    its top-level version is supported, and every section it goes
    through (the implicit one for a flat document) has a map that
    [sourceMap.parse] accepts. *)
Theorem Parse_succeeds_iff (mapURL : string) (b : list Byte.byte) :
  (exists c, Parse mapURL b = Ret (Ok c))
  <-> (exists d, json_Unmarshal b = Ok d
         /\ supported (Version (v3_sourceMap d))
         /\ Forall (parses mapURL) (document_sections d)).
Proof.
  unfold Parse. split.
  - intros [c Hc]. destruct (json_Unmarshal b) as [d|e]; [|discriminate].
    destruct (checkVersion (Version (v3_sourceMap d))) eqn:Hv; [discriminate|].
    fold (document_sections d) in Hc.
    destruct (parse_sections (document_sections d) mapURL) as [[ss'|e]|p] eqn:Hp;
      simpl in Hc; try discriminate.
    exists d. split; [reflexivity|]. split; [apply checkVersion_None, Hv|].
    eapply parsed_as_parses, parse_sections_Ok, Hp.
  - intros (d & Hb & Hv & Hall). rewrite Hb, (checkVersion_supported _ Hv).
    fold (document_sections d).
    destruct (parse_sections_all _ _ Hall) as [ss' Hss]. rewrite Hss.
    simpl. eauto.
Qed.

(** X10.  The consumer [Parse] builds: [File] is the file of the top-level
    document (for an indexed document too, the files of the sections'
    maps play no part); it has as many sections as [Parse] went through,
    at least one; and every stored section has a map, whose raw mappings
    string has been emptied. *)
Theorem Parse_consumer_shape mapURL b c :
  Parse mapURL b = Ret (Ok c) ->
  exists d, json_Unmarshal b = Ok d
    /\ Consumer_File c = File (v3_sourceMap d)
    /\ length (sections c) = length (document_sections d)
    /\ (1 <= length (sections c))%nat
    /\ forall s, In s (sections c) ->
         exists m', Map s = Some m' /\ Mappings m' = ""%string.
Proof.
  intros Hp. destruct (Parse_Ok _ _ _ Hp) as (d & Hb & Hfile & Hss).
  exists d. split; [exact Hb|]. split; [exact Hfile|].
  assert (Hlen : length (sections c) = length (document_sections d)).
  { rewrite <- (Forall2_length _ _ _ Hss), length_rev. reflexivity. }
  split; [exact Hlen|]. split.
  - rewrite Hlen. unfold document_sections.
    destruct (Sections d); simpl; lia.
  - intros s Hin. clear Hlen.
    induction Hss as [|s0 s0' ss ss' (m & m' & _ & Hm & ->) _ IH];
      [destruct Hin|].
    destruct Hin as [<- | Hin]; [|exact (IH Hin)].
    exists m'. split; [reflexivity|].
    apply (parse_Ok_fields _ _ _ Hm).
Qed.

(** ** Consumer.source on any records *)

Lemma pos_lt_le p q : pos_lt p q -> pos_le p q.
Proof. unfold pos_lt, pos_le. lia. Qed.

(** The selected record is at or before the query, sorted records or not:
    the search ends between an index where the closure is false and one
    where it is true. *)
Lemma selected_not_after ms qLine qColumn k :
  selected ms qLine qColumn = Some k ->
  exists r, ms !! k = Some r /\ pos_le (pos r) (qLine, qColumn).
Proof.
  unfold selected.
  destruct (sort_Search_bounds (length ms) (not_before ms qLine qColumn))
    as (Hb & Hlo & Hhi).
  set (i := sort_Search _ _) in *.
  destruct (ms !! i) as [r0|] eqn:Hr0; [|discriminate].
  pose proof (lookup_lt_Some _ _ _ Hr0) as Hlt.
  destruct Hhi as [Hn | Hhi]; [lia|].
  apply (not_before_true _ _ _ _ _ Hr0) in Hhi.
  destruct ((genLine r0 >? qLine) || (genColumn r0 >? qColumn)) eqn:Hfz.
  - destruct (Nat.eqb_spec i 0) as [H0|H0]; [discriminate|]. intros [= <-].
    destruct Hlo as [Hlo | Hlo]; [lia|].
    destruct (lookup_lt_is_Some_2 ms (i - 1) ltac:(lia)) as [r Hr].
    exists r. split; [exact Hr|]. apply pos_lt_le.
    apply (not_before_false _ _ _ _ _ Hr). exact Hlo.
  - intros [= <-]. exists r0. split; [exact Hr0|].
    apply orb_false_iff in Hfz. unfold pos_le, pos in *. simpl in *. lia.
Qed.

Lemma resolve_Ret (m : sourceMap) r res :
  resolve m r = Ret res ->
  res_ok res = true /\ res_line res = sourceLine r
  /\ res_column res = sourceColumn r.
Proof.
  unfold resolve.
  destruct (if sourcesInd r >=? 0 then _ else _) as [src|p]; [|discriminate].
  simpl.
  destruct (if namesInd r >=? 0 then _ else _) as [name|p]; [|discriminate].
  simpl. intros [= <-]. auto.
Qed.

Lemma resolve_in_range (m : sourceMap) r :
  indices_in_range m r -> exists res, resolve m r = Ret res.
Proof.
  intros [Hs Hn]. unfold resolve, index.
  destruct (Z.geb_spec (sourcesInd r) 0) as [Hs0|Hs0].
  - destruct (lookup_lt_is_Some_2 (Sources m) (Z.to_nat (sourcesInd r))
                ltac:(lia)) as [s ->]. simpl.
    destruct (Z.geb_spec (namesInd r) 0) as [Hn0|Hn0].
    + destruct (lookup_lt_is_Some_2 (Names m) (Z.to_nat (namesInd r))
                  ltac:(lia)) as [v ->]. simpl. eauto.
    + simpl. eauto.
  - simpl. destruct (Z.geb_spec (namesInd r) 0) as [Hn0|Hn0].
    + destruct (lookup_lt_is_Some_2 (Names m) (Z.to_nat (namesInd r))
                  ltac:(lia)) as [v ->]. simpl. eauto.
    + simpl. eauto.
Qed.

Lemma resolve_panic (m : sourceMap) r p :
  resolve m r = Panic p -> p = IndexOutOfRange.
Proof.
  unfold resolve, index.
  destruct (sourcesInd r >=? 0).
  - destruct (Sources m !! Z.to_nat (sourcesInd r)); simpl; [|congruence].
    destruct (namesInd r >=? 0); simpl; [|discriminate].
    destruct (Names m !! Z.to_nat (namesInd r)); simpl; [discriminate|congruence].
  - simpl. destruct (namesInd r >=? 0); simpl; [|discriminate].
    destruct (Names m !! Z.to_nat (namesInd r)); simpl; [discriminate|congruence].
Qed.

Lemma source_panic (m : sourceMap) qLine qColumn p :
  source (Some m) qLine qColumn = Panic p -> p = IndexOutOfRange.
Proof.
  rewrite source_selected.
  destruct (selected (mappings m) qLine qColumn) as [k|]; [|discriminate].
  destruct (mappings m !! k) as [r|]; [apply resolve_panic | congruence].
Qed.

(** X11.  Whatever the order of the records, a record [source] finds is
    one of the records and lies at or before the query position; the
    line and column returned are its source line and column. *)
Theorem source_never_after_query (m : sourceMap) (qLine qColumn : Z)
    (res : lookup_result) :
  source (Some m) qLine qColumn = Ret res -> res_ok res = true ->
  exists r, In r (mappings m)
    /\ pos_le (pos r) (qLine, qColumn)
    /\ res_line res = sourceLine r /\ res_column res = sourceColumn r.
Proof.
  rewrite source_selected.
  destruct (selected (mappings m) qLine qColumn) as [k|] eqn:Hk.
  - destruct (selected_not_after _ _ _ _ Hk) as (r & Hr & Hle). rewrite Hr.
    intros Hres _. exists r. split.
    + apply list_elem_of_In. eapply list_elem_of_lookup_2, Hr.
    + split; [exact Hle|]. apply (resolve_Ret _ _ _ Hres).
  - intros [= <-]. discriminate.
Qed.

(** X12.  When the source and name indices of every record lie within
    [Sources] and [Names], [source] returns for every query, without a
    panic; and a result with [ok = false] is the zero result. *)
Theorem source_returns_in_range (m : sourceMap) :
  (forall r, In r (mappings m) -> indices_in_range m r) ->
  forall qLine qColumn,
    exists res, source (Some m) qLine qColumn = Ret res
      /\ (res_ok res = false -> res = not_found).
Proof.
  intros Hrange qLine qColumn. rewrite source_selected.
  destruct (selected (mappings m) qLine qColumn) as [k|] eqn:Hk.
  - destruct (selected_not_after _ _ _ _ Hk) as (r & Hr & _). rewrite Hr.
    destruct (resolve_in_range m r) as [res Hres].
    { apply Hrange. apply list_elem_of_In. eapply list_elem_of_lookup_2, Hr. }
    exists res. split; [exact Hres|].
    destruct (resolve_Ret _ _ _ Hres) as (Hok & _). congruence.
  - exists not_found. auto.
Qed.

(** X13.  An index past the end of [Sources] or [Names] is not checked: on
    sorted records, the lookup at the position of a record (the first at
    its position) whose source index is at least [len(Sources)], or whose
    source index is in range and whose name index is at least
    [len(Names)], panics with an index out of range. *)
Theorem source_index_out_of_range (m : sourceMap) (k : nat) (r : mapping) :
  sorted (mappings m) ->
  mappings m !! k = Some r ->
  (forall j r', (j < k)%nat -> mappings m !! j = Some r' -> pos r' <> pos r) ->
  Z.of_nat (length (Sources m)) <= sourcesInd r
  \/ (sourcesInd r < Z.of_nat (length (Sources m))
      /\ Z.of_nat (length (Names m)) <= namesInd r) ->
  source (Some m) (genLine r) (genColumn r) = Panic IndexOutOfRange.
Proof.
  intros Hs Hk Hfirst Hout.
  assert (Hsearch : sort_Search (length (mappings m))
            (not_before (mappings m) (genLine r) (genColumn r)) = k).
  { apply (search_first_unique _ _ _ k r Hs Hk); [apply pos_le_refl|].
    intros j r' Hj Hr'.
    pose proof (sorted_lookup _ Hs j k r' r ltac:(lia) Hr' Hk) as Hle.
    destruct (pos_le_or_lt (pos r) (pos r')) as [Hge | Hlt]; [|exact Hlt].
    exfalso. apply (Hfirst j r' Hj Hr'). apply pos_le_antisym; assumption. }
  rewrite source_selected. unfold selected. rewrite Hsearch, Hk.
  replace ((genLine r >? genLine r) || (genColumn r >? genColumn r)) with false
    by (symmetry; apply orb_false_iff; lia).
  rewrite Hk. unfold resolve, index.
  destruct Hout as [Hsrc | [Hsrc Hname]].
  - replace (sourcesInd r >=? 0) with true by (symmetry; apply Z.geb_le; lia).
    rewrite (proj2 (lookup_ge_None (Sources m) _)) by lia. reflexivity.
  - replace (namesInd r >=? 0) with true by (symmetry; apply Z.geb_le; lia).
    destruct (Z.geb_spec (sourcesInd r) 0) as [Hs0|Hs0].
    + destruct (lookup_lt_is_Some_2 (Sources m) (Z.to_nat (sourcesInd r))
                  ltac:(lia)) as [s ->]. simpl.
      rewrite (proj2 (lookup_ge_None (Names m) _)) by lia. reflexivity.
    + simpl. rewrite (proj2 (lookup_ge_None (Names m) _)) by lia. reflexivity.
Qed.

(** X14.  On a consumer that [Parse] built, [Source] never meets a nil
    map: for every query it returns, or panics with an index out of
    range. *)
Theorem Source_never_nil mapURL b c :
  Parse mapURL b = Ret (Ok c) ->
  forall qLine qColumn,
    (exists res, Source c qLine qColumn = Ret res)
    \/ Source c qLine qColumn = Panic IndexOutOfRange.
Proof.
  intros Hp qLine qColumn. destruct (Parse_Ok _ _ _ Hp) as (d & _ & _ & Hss).
  assert (Hmaps : forall s, In s (sections c) -> exists m', Map s = Some m').
  { clear Hp. intros s Hin.
    induction Hss as [|s0 s0' ss ss' (m & m' & _ & _ & ->) _ IH];
      [destruct Hin|].
    destruct Hin as [<- | Hin]; [eauto | exact (IH Hin)]. }
  unfold Source. clear Hss Hp. induction (sections c) as [|s ss IH]; simpl.
  - left. eauto.
  - destruct (selects s qLine qColumn).
    + destruct (Hmaps s ltac:(left; reflexivity)) as [m' ->].
      destruct (source (Some m') _ _) as [res|p] eqn:Hsrc; [left; eauto|].
      right. rewrite (source_panic _ _ _ _ Hsrc). reflexivity.
    + apply IH. intros s' Hin. apply Hmaps. right. exact Hin.
Qed.

(** ** parse and absSource together *)

(** X15.  How the sources of a freshly decoded map that has parsed are
    made absolute, for a name that is neither an absolute path nor an
    absolute URL: onto a non-empty source root that is an absolute URL,
    as a URL; onto a non-empty source root that is not, by a plain
    [path.Join], whatever the origin; with an empty source root, onto
    the directory of an origin that is an absolute URL, as a URL; and
    otherwise the name comes back unchanged. *)
Theorem parse_then_absSource (m m' : sourceMap) (mapURL name : string) :
  sourceRootURL m = None ->
  parse m mapURL = Ok m' ->
  path_IsAbs name = false -> is_abs_url name = false ->
  (forall u, SourceRoot m <> ""%string -> url_Parse (SourceRoot m) = Ok u ->
     URL_IsAbs u = true ->
     absSource m' name =
       URL_String (URL_set_Path u (path_Join (URL_Path u) name)))
  /\ (SourceRoot m <> ""%string -> is_abs_url (SourceRoot m) = false ->
      absSource m' name = path_Join (SourceRoot m) name)
  /\ (forall o, SourceRoot m = ""%string -> mapURL <> ""%string ->
        url_Parse mapURL = Ok o -> URL_IsAbs o = true ->
        absSource m' name =
          let root := URL_set_Path o (path_Dir (URL_Path o)) in
          URL_String (URL_set_Path root (path_Join (URL_Path root) name)))
  /\ (SourceRoot m = ""%string ->
      mapURL = ""%string \/ is_abs_url mapURL = false ->
      absSource m' name = name).
Proof.
  intros Hfresh Hp Hpath Hurl.
  pose proof (parse_Ok_root _ _ _ Hp) as Hroot. rewrite Hfresh in Hroot.
  destruct (parse_Ok_fields _ _ _ Hp) as (_ & _ & Hsr & _).
  unfold absSource. rewrite Hpath, Hurl, Hsr.
  unfold is_abs_url in *.
  split; [|split; [|split]].
  - intros u Hne Hu Habs. apply nonempty_true in Hne.
    rewrite Hne, Hu, Habs in Hroot. rewrite Hroot. reflexivity.
  - intros Hne Habs. apply nonempty_true in Hne. rewrite Hne in *.
    destruct (url_Parse (SourceRoot m)) as [u|e].
    + rewrite Habs in Hroot. rewrite Hroot. reflexivity.
    + rewrite Hroot. reflexivity.
  - intros o He Hne Ho Habs. apply nonempty_false in He.
    apply nonempty_true in Hne. rewrite He, Hne, Ho, Habs in Hroot.
    rewrite Hroot. reflexivity.
  - intros He Hor. apply nonempty_false in He. rewrite He in *.
    assert (Hnone : sourceRootURL m' = None).
    { destruct Hor as [-> | Habs]; [exact Hroot|].
      destruct (nonempty mapURL); [|exact Hroot].
      destruct (url_Parse mapURL) as [o|e]; [|exact Hroot].
      rewrite Habs in Hroot. exact Hroot. }
    rewrite Hnone. reflexivity.
Qed.

(** ** Consumer.Source on descending offsets *)

Lemma Source_loop_greatest ss qLine qColumn :
  descending ss ->
  (forall s, In s ss -> is_int (Offset_Line s) /\ Offset_Line s < int_max) ->
  ((forall s, In s ss -> qLine <= Offset_Line s)
   /\ Source_loop ss qLine qColumn = Ret not_found)
  \/ exists s, In s ss
       /\ Offset_Line s < qLine
       /\ (forall s', In s' ss -> Offset_Line s' < qLine ->
             Offset_Line s' <= Offset_Line s)
       /\ Source_loop ss qLine qColumn =
            source (Map s) (int_sub qLine (Offset_Line s))
                   (int_sub qColumn (Offset_Column s)).
Proof.
  induction ss as [|s ss IH]; intros Hdesc Hoff.
  - left. split; [intros s []|reflexivity].
  - destruct Hdesc as [Hhead Hdesc].
    destruct (Hoff s ltac:(left; reflexivity)) as [Hint Hmax].
    simpl. rewrite selects_below_max by assumption.
    destruct (Z.ltb_spec (Offset_Line s) qLine) as [Hlt|Hge].
    + right. exists s. split; [left; reflexivity|]. split; [exact Hlt|].
      split; [|reflexivity].
      intros s' [<- | Hin] _; [lia | exact (Hhead s' Hin)].
    + destruct (IH Hdesc) as [[Hall Hnone] | (s0 & Hin & Hlt & Hmaxi & Hsrc)].
      * intros s' Hin. apply Hoff. right. exact Hin.
      * left. split; [|exact Hnone].
        intros s' [<- | Hin]; [exact Hge | exact (Hall s' Hin)].
      * right. exists s0. split; [right; exact Hin|]. split; [exact Hlt|].
        split; [|exact Hsrc].
        intros s' [<- | Hin'] Hlt'; [lia | exact (Hmaxi s' Hin' Hlt')].
Qed.

(** X16.  When the stored sections are in descending order of offset line
    (all below the largest [int]), [Source] hands the query to the
    section with the greatest offset line below the query line, and
    finds nothing when every offset line is at or above the query line. *)
Theorem Source_greatest_offset_below (c : Consumer) (qLine qColumn : Z) :
  descending (sections c) ->
  (forall s, In s (sections c) ->
     is_int (Offset_Line s) /\ Offset_Line s < int_max) ->
  ((forall s, In s (sections c) -> qLine <= Offset_Line s)
   /\ Source c qLine qColumn = Ret not_found)
  \/ exists s, In s (sections c)
       /\ Offset_Line s < qLine
       /\ (forall s', In s' (sections c) -> Offset_Line s' < qLine ->
             Offset_Line s' <= Offset_Line s)
       /\ Source c qLine qColumn =
            source (Map s) (int_sub qLine (Offset_Line s))
                   (int_sub qColumn (Offset_Column s)).
Proof. apply Source_loop_greatest. Qed.

End Properties.

(** * Examples

    The theorems above at the concrete library, documents and maps. *)

Section Examples.
Existing Instance demo_types.
Existing Instance demo_lib.

Lemma Source_first_matching_section_witness :
  Parse "" doc_indexed = Ret (Ok demo_consumer)
  /\ (exists d, json_Unmarshal doc_indexed = Ok d
        /\ Forall2 (parsed_as "") (rev (document_sections d))
             (sections demo_consumer))
  /\ Source demo_consumer 6 10 =
       source (Map section_b) (int_sub 6 5) (int_sub 10 10)
  /\ Source demo_consumer 5 9 =
       source (Map section_a) (int_sub 5 0) (int_sub 9 0)
  /\ Source demo_consumer 0 0 = Ret not_found.
Proof.
  assert (Hp : Parse "" doc_indexed = Ret (Ok demo_consumer))
    by (vm_compute; reflexivity).
  split; [exact Hp|]. split; [|split; [|split]].
  - exact (proj1 (@Source_first_matching_section demo_types demo_lib
                    demo_consumer 0 0) "" doc_indexed Hp).
  - apply (proj1 (proj2 (@Source_first_matching_section demo_types demo_lib
                           demo_consumer 6 10)) 0%nat section_b).
    + reflexivity.
    + left. simpl. lia.
    + intros j s' Hj. lia.
  - apply (proj1 (proj2 (@Source_first_matching_section demo_types demo_lib
                           demo_consumer 5 9)) 1%nat section_a).
    + reflexivity.
    + left. simpl. lia.
    + intros [|j] s' Hj Hs'; [|lia]. injection Hs' as <-. no_match.
  - apply (proj1 (proj2 (proj2 (@Source_first_matching_section demo_types
                                  demo_lib demo_consumer 0 0)))).
    intros s [<- | [<- | []]]; no_match.
Defined.

Lemma source_binary_search_witness :
  source (Some demo_map) 1 5 =
    Ret {| res_source := "/src/a.js"; res_name := "main"; res_line := 1;
           res_column := 0; res_ok := true |}
  /\ source (Some demo_map) 2 4 =
       Ret {| res_source := "http://example.com/js/lib/b.js"; res_name := "";
              res_line := 7; res_column := 2; res_ok := true |}
  /\ source (Some demo_map) 0 3 = Ret not_found
  /\ source (Some demo_map) 2 5 = Ret not_found.
Proof.
  assert (Hs : sorted (mappings demo_map)) by reflexivity.
  split; [|split; [|split]].
  - (* fuzzy: the first record not before (1, 5) is the second one *)
    destruct (proj2 (source_binary_search demo_map 1 5 Hs) 1%nat
                {| genLine := 1; genColumn := 10; sourcesInd := 1;
                   sourceLine := 2; sourceColumn := 4; namesInd := 1 |})
      as (_ & _ & Hfuzzy & _).
    + reflexivity.
    + right. simpl. lia.
    + intros [|j] r' Hj Hr'; [|lia]. injection Hr' as <-. right. simpl. lia.
    + rewrite (Hfuzzy ltac:(right; simpl; lia) _ ltac:(lia) eq_refl).
      reflexivity.
  - (* exact match on the third record *)
    destruct (proj2 (source_binary_search demo_map 2 4 Hs) 2%nat
                {| genLine := 2; genColumn := 4; sourcesInd := 1;
                   sourceLine := 7; sourceColumn := 2; namesInd := -1 |})
      as (Hexact & _).
    + reflexivity.
    + right. simpl. lia.
    + intros [|[|j]] r' Hj Hr'; [| |lia]; injection Hr' as <-; left; simpl; lia.
    + rewrite (Hexact ltac:(simpl; lia)). reflexivity.
  - (* the query is before every record *)
    destruct (proj2 (source_binary_search demo_map 0 3 Hs) 0%nat
                {| genLine := 1; genColumn := 0; sourcesInd := 0;
                   sourceLine := 1; sourceColumn := 0; namesInd := 0 |})
      as (_ & Hnone & _).
    + reflexivity.
    + left. simpl. lia.
    + intros j r' Hj. lia.
    + apply Hnone; [left; simpl; lia | reflexivity].
  - (* every record is before the query *)
    apply (proj1 (source_binary_search demo_map 2 5 Hs)).
    intros r [<- | [<- | [<- | []]]]; unfold pos_lt; simpl; lia.
Defined.

Lemma lookup_first_record_witness :
  lookup_returns demo_map
    {| genLine := 1; genColumn := 10; sourcesInd := 1; sourceLine := 2;
       sourceColumn := 4; namesInd := 1 |}.
Proof.
  apply (lookup_first_record demo_map 1).
  - reflexivity.
  - reflexivity.
  - intros [|j] r' Hj Hr'; [|lia]. injection Hr' as <-. discriminate.
  - split; simpl; lia.
Defined.

(** The lookup at the position of the second of two records that share
    it returns the first: what section 8 of the specification promises
    of every record fails for the second. *)
Lemma lookup_duplicate_position :
  sorted (mappings dup_map)
  /\ In dup_second (mappings dup_map)
  /\ indices_in_range dup_map dup_second
  /\ source (Some dup_map) (genLine dup_second) (genColumn dup_second) =
       Ret {| res_source := "/src/a.js"; res_name := ""; res_line := 1;
              res_column := 0; res_ok := true |}
  /\ ~ lookup_returns dup_map dup_second.
Proof.
  split; [reflexivity|]. split; [right; left; reflexivity|].
  split; [split; simpl; lia|]. split; [reflexivity|].
  intros (res & Hres & _ & _ & _ & Hline & _).
  injection Hres as <-. discriminate Hline.
Qed.

Lemma lookup_monotone_witness :
  selected (mappings demo_map) 1 5 = Some 0%nat
  /\ selected (mappings demo_map) 2 0 = Some 1%nat
  /\ (0 <= 1)%nat
  /\ (exists r, mappings demo_map !! 1%nat = Some r /\ ~ pos_lt (2, 0) (pos r)).
Proof.
  assert (Hs : sorted (mappings demo_map)) by reflexivity.
  destruct (lookup_monotone demo_map Hs) as (_ & Hnever & Hmono).
  split; [reflexivity|]. split; [reflexivity|]. split.
  - apply (Hmono (1, 5) (2, 0)); [left; simpl; lia | reflexivity | reflexivity].
  - apply (Hnever 2 0 1%nat). reflexivity.
Defined.


Lemma parse_resolvedRoot_witness :
  parse flat_map origin = Ok flat_map_parsed
  /\ sourceRootURL flat_map_parsed = Some origin_dir
  /\ sourceRootURL flat_map_parsed = spec_resolvedRoot "" origin.
Proof.
  assert (Hp : parse flat_map origin = Ok flat_map_parsed)
    by (vm_compute; reflexivity).
  split; [exact Hp|].
  destruct (@parse_resolvedRoot demo_types demo_lib flat_map flat_map_parsed origin eq_refl Hp)
    as (_ & _ & Hdir & _ & Hspec).
  split.
  - apply (Hdir {| Scheme := "http"; Host := "example.com";
                   Path := "/js/app.js.map" |});
      [reflexivity | discriminate | vm_compute; reflexivity | reflexivity].
  - apply Hspec; [left|]; reflexivity.
Defined.

(** A relative source root: the code leaves the resolved root empty, where
    the rule of the specification falls back on the directory of the
    origin. *)
Lemma relative_root_not_resolved :
  parse relative_root_map origin = Ok relative_root_map_parsed
  /\ sourceRootURL relative_root_map_parsed = None
  /\ spec_resolvedRoot (SourceRoot relative_root_map) origin = Some origin_dir
  /\ sourceRootURL relative_root_map_parsed
       <> spec_resolvedRoot (SourceRoot relative_root_map) origin.
Proof.
  split; [vm_compute; reflexivity|]. split; [reflexivity|].
  split; [vm_compute; reflexivity|]. vm_compute. discriminate.
Qed.

Lemma Parse_section_without_map_witness :
  json_Unmarshal doc_section_without_map = Ok v3_section_without_map
  /\ Parse "" doc_section_without_map = Panic NilDereference.
Proof.
  split; [reflexivity|].
  apply (Parse_section_without_map_panics "" doc_section_without_map
           v3_section_without_map []
           {| Offset_Line := 0; Offset_Column := 0; Map := None |} []).
  - reflexivity.
  - left. reflexivity.
  - reflexivity.
  - constructor.
  - reflexivity.
Defined.

Lemma absSource_cases_witness :
  absSource demo_map "/src/a.js" = "/src/a.js"%string
  /\ absSource demo_map "http://cdn.example.com/x.js" = "http://cdn.example.com/x.js"%string
  /\ absSource demo_map "lib/b.js" = "http://example.com/js/lib/b.js"%string
  /\ absSource relative_root_map "a.js" = "src/a.js"%string
  /\ absSource dup_map "a.js" = "a.js"%string.
Proof.
  split; [|split; [|split; [|split]]].
  - apply (proj1 (@absSource_cases demo_types demo_lib demo_map "/src/a.js")). left. reflexivity.
  - apply (proj1 (@absSource_cases demo_types demo_lib demo_map "http://cdn.example.com/x.js")).
    right. reflexivity.
  - destruct (proj2 (@absSource_cases demo_types demo_lib demo_map "lib/b.js") eq_refl eq_refl)
      as (Hroot & _).
    rewrite (Hroot _ eq_refl). reflexivity.
  - destruct (proj2 (@absSource_cases demo_types demo_lib relative_root_map "a.js") eq_refl eq_refl)
      as (_ & Hjoin & _).
    rewrite (Hjoin eq_refl ltac:(discriminate)). reflexivity.
  - destruct (proj2 (@absSource_cases demo_types demo_lib dup_map "a.js") eq_refl eq_refl)
      as (_ & _ & Hsame).
    exact (Hsame eq_refl eq_refl).
Defined.


Lemma flat_line_zero_not_found_witness :
  Parse "" doc_flat = Ret (Ok flat_consumer)
  /\ Source flat_consumer 0 0 = Ret not_found
  /\ Source flat_consumer 0 7 = Ret not_found.
Proof.
  assert (Hp : Parse "" doc_flat = Ret (Ok flat_consumer))
    by (vm_compute; reflexivity).
  split; [exact Hp|].
  destruct (@flat_line_zero_not_found demo_types demo_lib "" doc_flat v3_flat flat_consumer
              ltac:(vm_compute; reflexivity) eq_refl Hp) as [_ Hnone].
  split; apply Hnone.
Defined.

(** ** The further properties at the examples *)

Lemma selects_ignores_column_witness :
  selects section_b 6 3 = true
  /\ selects section_b 5 30 = false
  /\ selects section_b 6 30 = selects section_b 6 3.
Proof.
  destruct (@selects_ignores_column demo_types section_b 6 3
              ltac:(int_range) ltac:(int_range)) as [H63 Hcol].
  destruct (@selects_ignores_column demo_types section_b 5 30
              ltac:(int_range) ltac:(int_range)) as [H530 _].
  split; [rewrite H63; reflexivity|].
  split; [rewrite H530; reflexivity | apply Hcol].
Defined.

Lemma Source_local_line_positive_witness :
  Source demo_consumer 0 4 = Ret not_found
  /\ Source demo_consumer (-3) 0 = Ret not_found.
Proof.
  assert (Hoff : forall s, In s (sections demo_consumer) ->
                   0 <= Offset_Line s < int_max).
  { intros s [<- | [<- | []]]; unfold int_max; simpl; lia. }
  split.
  - apply (proj2 (@Source_local_line_positive demo_types demo_lib
                    demo_consumer 0 4 Hoff ltac:(int_range))). lia.
  - apply (proj2 (@Source_local_line_positive demo_types demo_lib
                    demo_consumer (-3) 0 Hoff ltac:(int_range))). lia.
Defined.

Lemma flat_Source_is_lookup_witness :
  exists m', parse (v3_sourceMap v3_flat) "" = Ok m'
    /\ Source flat_consumer 1 0 = source (Some m') 1 0
    /\ Source flat_consumer 7 2 = source (Some m') 7 2.
Proof.
  destruct (@flat_Source_is_lookup demo_types demo_lib "" doc_flat v3_flat
              flat_consumer ltac:(vm_compute; reflexivity) eq_refl
              ltac:(vm_compute; reflexivity)) as (m' & Hm & Hsrc).
  exists m'. split; [exact Hm|].
  split; apply Hsrc; try int_range; lia.
Defined.

Lemma parse_keeps_fields_witness :
  Sources flat_map_parsed = Sources flat_map
  /\ Mappings flat_map_parsed = ""%string
  /\ parseMappings (Mappings flat_map) = Ok (mappings flat_map_parsed).
Proof.
  destruct (@parse_keeps_fields demo_types demo_lib flat_map flat_map_parsed
              origin ltac:(vm_compute; reflexivity))
    as (_ & _ & _ & Hs & _ & Hm & Hd).
  auto.
Defined.

Lemma parse_ignores_origin_witness :
  parse relative_root_map origin = parse relative_root_map bad_url
  /\ url_Parse bad_url = Err refused.
Proof.
  split; [|reflexivity].
  apply (@parse_ignores_origin demo_types demo_lib relative_root_map).
  discriminate.
Defined.

Lemma parse_error_order_witness :
  parse bad_root_map origin = Err (InvalidURL refused)
  /\ parse flat_map bad_url = Err (InvalidURL refused)
  /\ parse bad_mappings_map origin = Err (MalformedMappings refused).
Proof.
  split; [|split].
  - apply (proj1 (@parse_error_order demo_types demo_lib bad_root_map origin
                    refused ltac:(left; reflexivity))).
    left. split; [discriminate | reflexivity].
  - apply (proj1 (@parse_error_order demo_types demo_lib flat_map bad_url
                    refused ltac:(left; reflexivity))).
    right. split; [reflexivity|]. split; [discriminate | reflexivity].
  - apply (proj2 (@parse_error_order demo_types demo_lib bad_mappings_map
                    origin refused ltac:(left; reflexivity))).
    + intros H. exfalso. apply H. reflexivity.
    + intros _ _. eexists. vm_compute. reflexivity.
    + reflexivity.
Defined.

Lemma Parse_returns_first_error_witness :
  Parse bad_url doc_flat = Ret (Err (InvalidURL refused))
  /\ Parse "" doc_section_version2 = Ret (Err (UnsupportedVersion 2)).
Proof.
  destruct (@Parse_returns_first_error demo_types demo_lib) as [_ Hfirst].
  split.
  - apply (Hfirst bad_url doc_flat v3_flat []
             {| Offset_Line := 0; Offset_Column := 0; Map := Some flat_map |}
             flat_map []).
    + vm_compute. reflexivity.
    + left. reflexivity.
    + reflexivity.
    + constructor.
    + reflexivity.
    + vm_compute. reflexivity.
  - apply (Hfirst "" doc_section_version2 v3_section_version2 []
             {| Offset_Line := 0; Offset_Column := 0;
                Map := Some (decoded 2 "" "" ["a.js"] [] "AAAA") |}
             (decoded 2 "" "" ["a.js"] [] "AAAA") []).
    + vm_compute. reflexivity.
    + left. reflexivity.
    + reflexivity.
    + constructor.
    + reflexivity.
    + reflexivity.
Defined.

Lemma Parse_succeeds_iff_witness :
  (exists c, Parse "" doc_indexed = Ret (Ok c))
  /\ (exists d, json_Unmarshal doc_flat = Ok d
        /\ Forall (parses origin) (document_sections d)).
Proof.
  split.
  - apply (proj2 (@Parse_succeeds_iff demo_types demo_lib "" doc_indexed)).
    exists v3_indexed. split; [vm_compute; reflexivity|].
    split; [left; reflexivity|].
    repeat constructor; eexists; eexists; (split; [reflexivity|]);
      vm_compute; reflexivity.
  - destruct (proj1 (@Parse_succeeds_iff demo_types demo_lib origin doc_flat))
      as (d & Hd & _ & Hall).
    + eexists. vm_compute. reflexivity.
    + exists d. auto.
Defined.

Lemma Parse_consumer_shape_witness :
  Parse "" doc_indexed = Ret (Ok demo_consumer)
  /\ exists d, json_Unmarshal doc_indexed = Ok d
       /\ Consumer_File demo_consumer = File (v3_sourceMap d)
       /\ length (sections demo_consumer) = length (document_sections d).
Proof.
  assert (Hp : Parse "" doc_indexed = Ret (Ok demo_consumer))
    by (vm_compute; reflexivity).
  split; [exact Hp|].
  destruct (@Parse_consumer_shape demo_types demo_lib "" doc_indexed
              demo_consumer Hp) as (d & Hd & Hf & Hlen & _).
  exists d. auto.
Defined.

Lemma source_never_after_query_witness :
  sortedb (mappings unsorted_map) = false
  /\ exists r, In r (mappings unsorted_map)
       /\ pos_le (pos r) (1, 5)
       /\ sourceLine r = 10 /\ sourceColumn r = 0.
Proof.
  split; [reflexivity|].
  destruct (@source_never_after_query demo_types demo_lib unsorted_map 1 5
              {| res_source := "/src/a.js"; res_name := ""; res_line := 10;
                 res_column := 0; res_ok := true |}
              ltac:(vm_compute; reflexivity) eq_refl)
    as (r & Hin & Hle & Hline & Hcol).
  exists r. simpl in Hline, Hcol. auto.
Defined.

Lemma source_returns_in_range_witness :
  (exists res, source (Some demo_map) 1 5 = Ret res
     /\ (res_ok res = false -> res = not_found))
  /\ (exists res, source (Some demo_map) 9 9 = Ret res
        /\ (res_ok res = false -> res = not_found)).
Proof.
  assert (Hrange : forall r, In r (mappings demo_map) ->
                     indices_in_range demo_map r).
  { intros r [<- | [<- | [<- | []]]]; split; simpl; lia. }
  split; apply (@source_returns_in_range demo_types demo_lib demo_map Hrange).
Defined.

Lemma source_index_out_of_range_witness :
  source (Some stray_map) 1 0 = Panic IndexOutOfRange.
Proof.
  apply (@source_index_out_of_range demo_types demo_lib stray_map 0%nat
           stray_record).
  - reflexivity.
  - reflexivity.
  - intros j r' Hj. lia.
  - left. simpl. lia.
Defined.

Lemma Source_never_nil_witness :
  Parse "" doc_indexed = Ret (Ok demo_consumer)
  /\ ((exists res, Source demo_consumer 6 10 = Ret res)
      \/ Source demo_consumer 6 10 = Panic IndexOutOfRange).
Proof.
  assert (Hp : Parse "" doc_indexed = Ret (Ok demo_consumer))
    by (vm_compute; reflexivity).
  split; [exact Hp|].
  apply (@Source_never_nil demo_types demo_lib "" doc_indexed demo_consumer Hp).
Defined.

Lemma parse_then_absSource_witness :
  absSource relative_root_map_parsed "a.js" = path_Join "src" "a.js"
  /\ path_Join "src" "a.js" = "src/a.js"%string
  /\ absSource flat_map_parsed "a.js" = "http://example.com/js/a.js"%string.
Proof.
  destruct (@parse_then_absSource demo_types demo_lib relative_root_map
              relative_root_map_parsed origin "a.js" eq_refl
              ltac:(vm_compute; reflexivity) eq_refl eq_refl)
    as (_ & Hjoin & _).
  destruct (@parse_then_absSource demo_types demo_lib flat_map
              flat_map_parsed origin "a.js" eq_refl
              ltac:(vm_compute; reflexivity) eq_refl eq_refl)
    as (_ & _ & Hdir & _).
  split; [apply Hjoin; [discriminate | reflexivity]|].
  split; [reflexivity|].
  rewrite (Hdir {| Scheme := "http"; Host := "example.com";
                   Path := "/js/app.js.map" |} eq_refl ltac:(discriminate)
             ltac:(vm_compute; reflexivity) eq_refl).
  vm_compute. reflexivity.
Defined.

Lemma Source_greatest_offset_below_witness :
  Source demo_consumer 6 3 =
    source (Map section_b) (int_sub 6 5) (int_sub 3 10)
  /\ Source demo_consumer 5 30 =
       source (Map section_a) (int_sub 5 0) (int_sub 30 0).
Proof.
  assert (Hdesc : descending (sections demo_consumer)).
  { simpl. split; [|split; [|exact I]].
    - intros s' [<- | []]. simpl. lia.
    - intros s' []. }
  assert (Hoff : forall s, In s (sections demo_consumer) ->
                   is_int (Offset_Line s) /\ Offset_Line s < int_max).
  { intros s [<- | [<- | []]]; split; try int_range; unfold int_max; simpl; lia. }
  split.
  - destruct (@Source_greatest_offset_below demo_types demo_lib demo_consumer
                6 3 Hdesc Hoff) as [[Hall _] | (s & Hin & Hlt & Hmax & Hsrc)].
    + exfalso. specialize (Hall section_b ltac:(left; reflexivity)).
      simpl in Hall. lia.
    + destruct Hin as [<- | [<- | []]]; [exact Hsrc|]. exfalso.
      specialize (Hmax section_b ltac:(left; reflexivity)). simpl in Hmax. lia.
  - destruct (@Source_greatest_offset_below demo_types demo_lib demo_consumer
                5 30 Hdesc Hoff) as [[Hall _] | (s & Hin & Hlt & Hmax & Hsrc)].
    + exfalso. specialize (Hall section_a ltac:(right; left; reflexivity)).
      simpl in Hall. lia.
    + destruct Hin as [<- | [<- | []]]; [|exact Hsrc]. exfalso.
      simpl in Hlt. lia.
Defined.

End Examples.
